(** * statusmake: a shallow embedding of [statusmake.js]

    The module builds an express-style route handler that runs a set of
    health checks (HTTP endpoints, caller-supplied functions, host metrics)
    and answers with one composite report.

    Conventions of the embedding:
    - a Bluebird promise is the state it ends in ([Pending], [Resolved],
      [Rejected]); the order in which sibling promises settle is an explicit
      schedule (a list of indices), so that every statement quantifies over
      completion orders;
    - a JavaScript call that may throw returns a [completion];
    - a thrown or rejected value is an [Error] object with a [message],
      [undefined] or [null], or another value;
    - JavaScript objects that are filled key by key ([result] in
      [healthCheckServer] and [orchestrate]) are [gmap string _];
    - numbers are IEEE 754 binary64 values, in the Standard Library's
      [spec_float] with its correctly rounded operations. *)

From Stdlib Require Import ZArith QArith Qround Qabs Qpower Lqa.
From Stdlib Require Import Floats.SpecFloat.
From stdpp Require Import base option list gmap strings sets.

#[local] Set Warnings "-clear-no-such-hyp".

Open Scope string_scope.
Open Scope list_scope.

(** ** Errors, completions and promises *)

Record js_error := Error { message : string }.

(** A thrown value or rejection reason: an [Error] object, [undefined] or
    [null], or any other value, which has no [message]. *)
Inductive js_reason :=
  | ErrorObject (e : js_error)
  | Nullish
  | OtherValue.

Coercion ErrorObject : js_error >-> js_reason.

(** Outcome of a synchronous call. *)
Inductive completion (A : Type) :=
  | Returned (a : A)
  | Threw (e : js_reason).
Arguments Returned {A} a.
Arguments Threw {A} e.

(** Final state of a promise. *)
Inductive promise (A : Type) :=
  | Pending
  | Resolved (a : A)
  | Rejected (e : js_reason).
Arguments Pending {A}.
Arguments Resolved {A} a.
Arguments Rejected {A} e.

(** [r.message]: reading a property of [undefined] or [null] throws; a
    value without the property gives [undefined] ([None]). *)
Definition reason_message (r : js_reason) : completion (option string) :=
  match r with
  | ErrorObject e => Returned (Some (message e))
  | Nullish => Threw (Error "Cannot read property 'message' of undefined")
  | OtherValue => Returned None
  end.

(** What a callback may hand back to Bluebird: a plain value or a promise. *)
Inductive thenable (A : Type) :=
  | Plain (a : A)
  | Promised (p : promise A).
Arguments Plain {A} a.
Arguments Promised {A} p.

(** How Bluebird turns the outcome of a callback into the state of the
    promise it chains: a throw rejects, a plain value resolves, a returned
    promise is followed. *)
Definition assimilate {A} (r : completion (thenable A)) : promise A :=
  match r with
  | Threw e => Rejected e
  | Returned (Plain a) => Resolved a
  | Returned (Promised p) => p
  end.

(** [p.then(f)] *)
Definition promise_then {A B} (p : promise A) (f : A -> completion (thenable B))
  : promise B :=
  match p with
  | Pending => Pending
  | Resolved a => assimilate (f a)
  | Rejected e => Rejected e
  end.

(** [p.catch(g)] *)
Definition promise_catch {A} (p : promise A)
  (g : js_reason -> completion (thenable A)) : promise A :=
  match p with
  | Pending => Pending
  | Resolved a => Resolved a
  | Rejected e => assimilate (g e)
  end.

(** [Promise.resolve(v)] *)
Definition promise_resolve {A} (a : A) : promise A := Resolved a.

(** [Promise.promisify(f)] applied to arguments: [f] ends by calling its
    node-style callback with [(error, value)]; a truthy [error] rejects the
    promise, whatever [value] is. *)
Definition promisify {A} (callback_args : option js_error * A) : promise A :=
  match callback_args with
  | (Some error, _) => Rejected error
  | (None, value) => Resolved value
  end.

(** Fan-in of sibling promises, shared by [Promise.map] and [Promise.join].
    [sched] lists the indices of [outs] in the order in which they settle.
    A fulfilment at index [i] runs [on_fulfil i] on the shared store; the
    first rejection rejects the aggregate; the aggregate resolves once every
    index has been fulfilled, and stays pending otherwise. *)
Fixpoint settle_all {St A} (on_fulfil : nat -> A -> St -> St)
    (outs : list (promise A)) (sched : list nat) (st : St) (done : gset nat)
  : promise St :=
  match sched with
  | [] =>
      if bool_decide (set_seq 0 (length outs) ⊆ done) then Resolved st
      else Pending
  | i :: rest =>
      match outs !! i with
      | Some (Resolved v) =>
          settle_all on_fulfil outs rest (on_fulfil i v st) ({[ i ]} ∪ done)
      | Some (Rejected e) => Rejected e
      | Some Pending | None => settle_all on_fulfil outs rest st done
      end
  end.

(** One fulfilment when every sibling resolves, to the values [vs]. *)
Definition fulfil {St A} (on_fulfil : nat -> A -> St -> St) (vs : list A)
    (st : St) (i : nat) : St :=
  match vs !! i with
  | Some v => on_fulfil i v st
  | None => st
  end.

(** [values[i] = v] *)
Definition store {B} (i : nat) (v : B) (values : list (option B))
  : list (option B) :=
  <[ i := Some v ]> values.

(** [Promise.map(items, mapper)]: the mapper runs on every item, the values
    are stored at the index of their item. *)
Definition Promise_map {A B} (sched : list nat) (items : list A)
    (mapper : A -> completion (thenable B)) : promise (list (option B)) :=
  settle_all store
    (map (fun item => assimilate (mapper item)) items)
    sched (replicate (length items) None) ∅.

(** ** Numbers *)

(** A JavaScript number is a double: [S754_finite s m e] is [m * 2 ^ e],
    negated when [s] is set. *)
Abbreviation jsnum := spec_float.

Definition double_prec : Z := 53.
Definition double_emax : Z := 1024.

(** [x * y] *)
Definition jsmul (x y : jsnum) : jsnum := SFmul double_prec double_emax x y.

(** [x / y] *)
Definition jsdiv (x y : jsnum) : jsnum := SFdiv double_prec double_emax x y.

(** The double nearest to [m * 2 ^ e]; [num z] is the integer literal [z]. *)
Definition double (m e : Z) : jsnum :=
  binary_normalize double_prec double_emax m e false.

Definition num (z : Z) : jsnum := double z 0.

(** The integer nearest to [m * 2 ^ e], negated when [s] is set, halves
    going up. *)
Definition nearest_integer (s : bool) (m : positive) (e : Z) : Z :=
  match e with
  | Zneg p => (2 * cond_Zopp s (Zpos m) + 2 ^ Zpos p) / 2 ^ (Zpos p + 1)
  | _ => cond_Zopp s (Zpos m) * 2 ^ e
  end.

(** [Math.round(x)]: the nearest integer, halves going up; a result of zero
    keeps the sign of [x]; zeros, infinities and [NaN] are returned as they
    are. *)
Definition Math_round (x : jsnum) : jsnum :=
  match x with
  | S754_finite s m e =>
      binary_normalize double_prec double_emax (nearest_integer s m e) 0 s
  | _ => x
  end.

#[global] Arguments jsmul : simpl never.
#[global] Arguments jsdiv : simpl never.
#[global] Arguments double : simpl never.
#[global] Arguments num : simpl never.
#[global] Arguments Math_round : simpl never.

(** ** Host metrics collector *)

(** [process.memoryUsage()] *)
Record MemoryUsage := {
  rss : jsnum;
  heapTotal : jsnum;
  heapUsed : jsnum
}.

(** The values the [os] and [process] modules report when the handler
    runs. [cpus] is [os.cpus().length]; [loadavg] is the array of the
    1, 5 and 15 minute load averages. *)
Record Host := {
  memoryUsage : MemoryUsage;
  totalmem : jsnum;
  uptime : jsnum;
  loadavg : jsnum * jsnum * jsnum;
  cpus : nat;
  hostname : string;
  freemem : jsnum
}.

(** What [diskspace.check] passes to its callback on success. *)
Record DiskData := {
  used : jsnum;
  total : jsnum
}.

(** A property value of the metrics object. *)
Inductive metric :=
  | MNum (n : jsnum)
  | MStr (s : string).

Definition getCpuPercent (h : Host) (load : jsnum) : jsnum :=
  let numCpu := num (Z.of_nat (cpus h)) in
  let val := jsmul (jsdiv load numCpu) (num 100) in
  jsdiv (Math_round (jsmul val (num 100))) (num 100).

(** The part of [healthCheckServer] that runs before the disk query: the
    [result] object with its first six properties. *)
Definition healthCheckServer_sync (h : Host) : gmap string metric :=
  let result : gmap string metric := ∅ in
  let memPercent :=
    jsmul (jsdiv (heapTotal (memoryUsage h)) (totalmem h)) (num 100) in
  let result :=
    <[ "process_memory_used_percent" :=
         MNum (jsdiv (Math_round (jsmul memPercent (num 100))) (num 100)) ]> result in
  let result :=
    <[ "uptime_minutes" :=
         MNum (jsdiv (Math_round (jsmul (jsdiv (uptime h) (num 60)) (num 100)))
                 (num 100)) ]> result in
  let cpuLoad := loadavg h in
  let result :=
    <[ "cpu_one_minute_average_percent" :=
         MNum (getCpuPercent h (cpuLoad.1.1)) ]> result in
  let result :=
    <[ "cpu_five_minute_average_percent" :=
         MNum (getCpuPercent h (cpuLoad.1.2)) ]> result in
  let result := <[ "hostname" := MStr (hostname h) ]> result in
  let result :=
    <[ "os_free_memory_mb" :=
         MNum (jsdiv (Math_round (jsmul (jsdiv (freemem h) (num (1024 * 1024)))
                                    (num 100)))
                 (num 100)) ]> result in
  result.

(** [healthCheckServer()]: [disk] is the promise of
    [diskspace.checkAsync('/')]. *)
Definition healthCheckServer (h : Host) (disk : promise DiskData)
  : promise (gmap string metric) :=
  let result := healthCheckServer_sync h in
  promise_catch
    (promise_then disk (fun data =>
       let val := jsmul (jsdiv (used data) (total data)) (num 100) in
       let result :=
         <[ "disk_root_use_percent" :=
              MNum (jsdiv (Math_round (jsmul val (num 100))) (num 100)) ]> result in
       Returned (Plain result)))
    (fun err =>
       let result := <[ "disk_root_use_percent" := MNum (num (-1)) ]> result in
       Returned (Plain result)).

(** ** Data model of the checks *)

(** Anything with a [name] property. *)
Class Named (A : Type) := name_of : A -> string.

Module ApiSpec.
Record t := { name : string; url : string }.
End ApiSpec.

Module FnSpec.
(** [fn] is a zero-argument function called once per request: it is given
    by what that call does. *)
Record t := { name : string; fn : completion (thenable bool) }.
End FnSpec.

#[global] Instance ApiSpec_named : Named ApiSpec.t := ApiSpec.name.
#[global] Instance FnSpec_named : Named FnSpec.t := FnSpec.name.

(** A status flag is a JavaScript value: a boolean, or [undefined] ([None]). *)
Abbreviation jsflag := (option bool).

Module CheckResult.
Record t := { name : string; active : jsflag }.
End CheckResult.

Module CategoryReport.
Record t := { status : jsflag; services : list CheckResult.t }.
End CategoryReport.

Record InspectionSet := {
  apis : option (list ApiSpec.t);
  functions : option (list FnSpec.t)
}.

(** ** Endpoint prober *)

(** What [request] passes to its callback: an error (time-out, DNS failure,
    refused connection, ...) or a response with its status code. *)
Inductive request_result :=
  | RequestError (error : js_error)
  | RequestResponse (statusCode : Z).

Definition ensureHttp200 (net : string -> request_result) (url : string)
  : promise bool :=
  promisify
    match net url with
    | RequestError error => (Some error, false)
    | RequestResponse statusCode => (None, Z.eqb statusCode 200)
    end.

(** ** Result reducer *)

(** [n && flag] on booleans and [undefined]. *)
Definition js_and (n flag : jsflag) : jsflag :=
  match n with
  | Some true => flag
  | _ => n
  end.

Definition allOk (statusFlags : list jsflag) : jsflag :=
  foldl (fun flag n => js_and n flag) (Some true) statusFlags.

(** [_.zip]: as long as the longer array, the shorter one padded with
    [undefined]. *)
Fixpoint lodash_zip {A B} (l1 : list A) (l2 : list B)
  : list (option A * option B) :=
  match l1, l2 with
  | [], _ => map (fun b => (None, Some b)) l2
  | _, [] => map (fun a => (Some a, None)) l1
  | a :: l1', b :: l2' => (Some a, Some b) :: lodash_zip l1' l2'
  end.

(** The [_.each] loop of [statusReply], pushing onto [services]. Reading
    [name] off a padded row throws. *)
Fixpoint statusReply_each {A} `{Named A}
    (zipped : list (option A * option jsflag)) (services : list CheckResult.t)
  : completion (list CheckResult.t) :=
  match zipped with
  | [] => Returned services
  | row :: rest =>
      match row.1 with
      | None => Threw (Error "Cannot read property 'name' of undefined")
      | Some serviceObj =>
          let code := mjoin row.2 in
          statusReply_each rest
            (services ++ [ {| CheckResult.name := name_of serviceObj;
                              CheckResult.active := code |} ])
      end
  end.

Definition statusReply {A} `{Named A} (serviceList : list A)
    (statusFlags : list jsflag) : completion CategoryReport.t :=
  let overallFlag := allOk statusFlags in
  let zipped := lodash_zip serviceList statusFlags in
  match statusReply_each zipped [] with
  | Threw e => Threw e
  | Returned services =>
      Returned {| CategoryReport.status := overallFlag;
                  CategoryReport.services := services |}
  end.

(** What a category prober resolves to: the report, or the empty array of
    the absent category. *)
Inductive category_value :=
  | EmptyArray
  | Report (r : CategoryReport.t).

(** [v.status] and [v.services] as property reads ([None]: [undefined]). *)
Definition category_status (v : category_value) : jsflag :=
  match v with
  | EmptyArray => None
  | Report r => CategoryReport.status r
  end.

Definition category_services (v : category_value) : option (list CheckResult.t) :=
  match v with
  | EmptyArray => None
  | Report r => Some (CategoryReport.services r)
  end.

(** [.then(_.partial(statusReply, specs))] *)
Definition then_statusReply {A} `{Named A} (specs : list A)
    (statusFlags : list jsflag) : completion (thenable category_value) :=
  match statusReply specs statusFlags with
  | Threw e => Threw e
  | Returned r => Returned (Plain (Report r))
  end.

Definition executeApis (net : string -> request_result) (sched : list nat)
    (apis : option (list ApiSpec.t)) : promise category_value :=
  match apis with
  | Some apis =>
      promise_then
        (Promise_map sched apis
           (fun api => Returned (Promised (ensureHttp200 net (ApiSpec.url api)))))
        (then_statusReply apis)
  | None => promise_resolve EmptyArray
  end.

(** ** Function prober *)

Definition executeFunctions (sched : list nat)
    (functions : option (list FnSpec.t)) : promise category_value :=
  match functions with
  | Some functions =>
      promise_then
        (Promise_map sched functions (fun serviceObj => FnSpec.fn serviceObj))
        (then_statusReply functions)
  | None => promise_resolve EmptyArray
  end.

(** ** Orchestrator *)

(** Everything outside the module that one run of the handler depends on:
    the host's counters, the disk query, the answers of the network, the
    order in which the probes of each category and the three branches of
    [orchestrate] settle, and whether [global.Raven] is set. *)
Record World := {
  host : Host;
  disk : promise DiskData;
  net : string -> request_result;
  apis_order : list nat;
  functions_order : list nat;
  join_order : list nat;
  raven : bool
}.

(** A JavaScript value passed where the module expects an InspectionSet. A
    request object has neither [apis] nor [functions]. *)
Inductive js_value :=
  | Undefined
  | InspectionSetObj (s : InspectionSet)
  | RequestObj (path : string).

(** [v.apis] *)
Definition get_apis (v : js_value) : completion (option (list ApiSpec.t)) :=
  match v with
  | Undefined => Threw (Error "Cannot read property 'apis' of undefined")
  | InspectionSetObj s => Returned (apis s)
  | RequestObj _ => Returned None
  end.

(** [v.functions] *)
Definition get_functions (v : js_value) : completion (option (list FnSpec.t)) :=
  match v with
  | Undefined => Threw (Error "Cannot read property 'functions' of undefined")
  | InspectionSetObj s => Returned (functions s)
  | RequestObj _ => Returned None
  end.

(** A property value of the [result] object of [orchestrate]. *)
Inductive report_field :=
  | FServer (m : gmap string metric)
  | FCategory (c : category_value).

(** [{ status: responseStatus, data: result }] *)
Record Envelope := {
  status : Z;
  data : gmap string report_field
}.

(** [p.then(function(v) { result[key] = field(v); })]: the promise of the
    assignment the callback makes to the shared [result]. *)
Definition then_assign {A} (p : promise A) (key : string) (field : A -> report_field)
  : promise (gmap string report_field -> gmap string report_field) :=
  promise_then p (fun v => Returned (Plain (fun result => <[ key := field v ]> result))).

(** [Promise.join(p0, p1, p2)], each fulfilment running its assignment on
    [result]. *)
Definition Promise_join {St} (sched : list nat) (ps : list (promise (St -> St)))
    (result : St) : promise St :=
  settle_all (fun _ assign st => assign st) ps sched result ∅.

Definition orchestrate (w : World) (inspectionSet : js_value)
  : completion (promise Envelope) :=
  match get_apis inspectionSet with
  | Threw e => Threw e
  | Returned apis =>
  match get_functions inspectionSet with
  | Threw e => Threw e
  | Returned functions =>
      let result : gmap string report_field := ∅ in
      let serverPromise :=
        then_assign (healthCheckServer (host w) (disk w)) "server" FServer in
      let apisPromise :=
        then_assign (executeApis (net w) (apis_order w) apis) "apis" FCategory in
      let functionsPromise :=
        then_assign (executeFunctions (functions_order w) functions)
          "functions" FCategory in
      Returned
        (promise_then
           (Promise_join (join_order w)
              [apisPromise; functionsPromise; serverPromise] result)
           (fun result =>
              let responseStatus := 200%Z in
              Returned (Plain {| status := responseStatus; data := result |})))
  end end.

(** ** Route handler adapter *)

(** The second argument of [res.send]: the envelope, or
    [{ status: status, data: { message: message } }], the message being a
    string or [undefined]. *)
Inductive Body :=
  | ReportBody (info : Envelope)
  | MessageBody (status : Z) (message : string)
  | UndefinedMessageBody (status : Z).

(** [{ status: status, data: { message: message } }] *)
Definition message_body (status : Z) (message : option string) : Body :=
  match message with
  | Some message => MessageBody status message
  | None => UndefinedMessageBody status
  end.

Record Response := {
  code : Z;
  body : Body
}.

(** What a run of the handler does to the outside: the responses sent on
    [res], the errors given to [Raven.captureException]. *)
Record Effects := {
  sent : list Response;
  captured : list js_reason
}.

Definition res_send (code : Z) (body : Body) (fx : Effects) : Effects :=
  {| sent := sent fx ++ [ {| code := code; body := body |} ];
     captured := captured fx |}.

Definition Raven_captureException (err : js_reason) (fx : Effects) : Effects :=
  {| sent := sent fx; captured := captured fx ++ [err] |}.

(** The function values of the module. *)
Inductive js_function :=
  | GetHealthCheck
  | RouteHandler (inspectionSet : js_value).

(** The body of the function returned by [getHealthCheck(inspectionSet)].
    When [err.message] throws inside the [catch] callback, nothing is sent
    or reported and the rejection stays unhandled. When [e.message] throws
    inside the [catch] block the exception leaves the handler; that does
    not happen, as [orchestrate] throws [Error] objects only. *)
Definition route_handler (w : World) (inspectionSet : js_value)
    (req : js_value) (fx : Effects) : Effects :=
  match orchestrate w inspectionSet with
  | Returned p =>
      match p with
      | Resolved info => res_send (status info) (ReportBody info) fx
      | Rejected err =>
          match reason_message err with
          | Returned message =>
              let fx := res_send 200 (message_body 200 message) fx in
              if raven w then Raven_captureException err fx else fx
          | Threw _ => fx
          end
      | Pending => fx
      end
  | Threw e =>
      match reason_message e with
      | Returned message => res_send 200 (message_body 200 message) fx
      | Threw _ => fx
      end
  end.

Definition getHealthCheck (inspectionSet : js_value) : js_function :=
  RouteHandler inspectionSet.

Definition getRouteHandler := getHealthCheck.

(** [f(req, res, next)]: the value returned and the effects. *)
Definition call_function (w : World) (f : js_function) (req : js_value)
    (fx : Effects) : option js_function * Effects :=
  match f with
  | GetHealthCheck => (Some (getHealthCheck req), fx)
  | RouteHandler inspectionSet => (None, route_handler w inspectionSet req fx)
  end.

(** ** Route registration *)

(** The routes of a server, in the order of registration. *)
Record Server := { routes : list (string * js_function) }.

(** [server.get(routeURI, handler)] *)
Definition server_get (server : Server) (routeURI : string) (handler : js_function)
  : Server :=
  {| routes := routes server ++ [(routeURI, handler)] |}.

Definition setupEndpoints (server : Server) (routeURI : string) : Server :=
  server_get server routeURI GetHealthCheck.

(** A GET request for [path]: the server calls the first handler registered
    for it with [(req, res, next)] and ignores what it returns. [None]: no
    route of the module matches. *)
Definition dispatch (w : World) (server : Server) (path : string) (fx : Effects)
  : option Effects :=
  match list_find (fun r => r.1 = path) (routes server) with
  | Some (_, (_, handler)) => Some (call_function w handler (RequestObj path) fx).2
  | None => None
  end.

(** ** What the specification calls "rounded to 2 decimals" *)

(** The rational that a double stands for (0 for what is not finite). *)
Definition SF2Q (x : jsnum) : Q :=
  match x with
  | S754_finite s m e => inject_Z (cond_Zopp s (Zpos m)) * 2 ^ e
  | _ => 0
  end.

(** [r] is the rational [v] rounded to two decimals: the double nearest to
    a multiple of one hundredth that is at most half a hundredth away from
    [v]. *)
Definition rounded_2dp (v : Q) (r : jsnum) : Prop :=
  exists k : Z,
    (Qabs (inject_Z k / 100 - v) <= 1 # 200)%Q /\ r = jsdiv (num k) (num 100).

(** [r] is the double [v] rounded to two decimals in double arithmetic:
    with [y] the double product of [v] and 100, [r] is the double quotient
    by 100 of the integer nearest to [y], halves going up, that integer
    being taken as a double; a [y] that is zero, infinite or [NaN] is
    divided as it is. *)
Definition double_rounded_2dp (v r : jsnum) : Prop :=
  match jsmul v (num 100) with
  | S754_finite s m e =>
      exists k : Z,
        (inject_Z k - (1 # 2) <= SF2Q (S754_finite s m e)
         /\ SF2Q (S754_finite s m e) < inject_Z k + (1 # 2))%Q
        /\ r = jsdiv (binary_normalize double_prec double_emax k 0 s) (num 100)
  | y => r = jsdiv y (num 100)
  end.

(** The specification's [(a / b) × 100], in double arithmetic. *)
Definition percent_of (a b : jsnum) : jsnum :=
  jsmul (jsdiv a b) (num 100).

(** AND-reduction of a sequence of booleans. *)
Definition and_reduce (bs : list bool) : bool := foldr andb true bs.

(** ** Sample inputs *)

(** A host whose process uses 100 of a 200 byte heap, out of 1000 bytes of
    memory, on 4 CPUs. *)
Definition sample_host : Host :=
  {| memoryUsage := {| rss := num 300; heapTotal := num 200; heapUsed := num 100 |};
     totalmem := num 1000;
     uptime := num 90;
     loadavg := (double 1 (-1), double 1 (-2), double 1 (-3));
     cpus := 4;
     hostname := "box";
     freemem := num 1048576 |}.

Definition sample_disk : DiskData := {| used := num 1; total := num 3 |}.

(** The double nearest to 0.3, and the sample host when it has been up for
    that many seconds. *)
Definition zero_point_three : jsnum := double 5404319552844595 (-54).

Definition young_host : Host :=
  {| memoryUsage := memoryUsage sample_host;
     totalmem := totalmem sample_host;
     uptime := zero_point_three;
     loadavg := loadavg sample_host;
     cpus := cpus sample_host;
     hostname := hostname sample_host;
     freemem := freemem sample_host |}.

(** The InspectionSet of the end-to-end scenarios: one endpoint, no
    function. *)
Definition sample_set : InspectionSet :=
  {| apis := Some [ {| ApiSpec.name := "svc-a"; ApiSpec.url := "http://x/health" |} ];
     functions := Some [] |}.

(** A function that returns [true] and one that throws. *)
Definition failing_fns : list FnSpec.t :=
  [ {| FnSpec.name := "db"; FnSpec.fn := Returned (Plain true) |};
    {| FnSpec.name := "queue"; FnSpec.fn := Threw (Error "boom") |} ].

(** A function that returns [false] and one whose promise resolves to
    [true]. *)
Definition mixed_fns : list FnSpec.t :=
  [ {| FnSpec.name := "db"; FnSpec.fn := Returned (Plain false) |};
    {| FnSpec.name := "queue";
       FnSpec.fn := Returned (Promised (Resolved true)) |} ].

Definition failing_set : InspectionSet :=
  {| apis := None; functions := Some failing_fns |}.

(** The sample host with a working disk query, no Raven, and the given
    network and completion orders. *)
Definition sample_world (net : string -> request_result)
    (apis_order functions_order join_order : list nat) : World :=
  {| host := sample_host;
     disk := Resolved sample_disk;
     net := net;
     apis_order := apis_order;
     functions_order := functions_order;
     join_order := join_order;
     raven := false |}.

(** A network on which every request times out. *)
Definition timeout_net (url : string) : request_result :=
  RequestError (Error "ETIMEDOUT").

(** A network on which every request is answered with the given status. *)
Definition answering_net (statusCode : Z) (url : string) : request_result :=
  RequestResponse statusCode.

Definition no_effects : Effects := {| sent := []; captured := [] |}.

(** A world in which the second function settles first. *)
Definition failing_world : World := sample_world timeout_net [] [1; 0] [2; 0; 1].

(** Two endpoints, and networks on which the second one answers 503 or
    refuses the connection. *)
Definition two_apis : list ApiSpec.t :=
  [ {| ApiSpec.name := "svc-a"; ApiSpec.url := "http://a/health" |};
    {| ApiSpec.name := "svc-b"; ApiSpec.url := "http://b/health" |} ].

Definition degraded_net (url : string) : request_result :=
  if String.eqb url "http://b/health" then RequestResponse 503
  else RequestResponse 200.

Definition refusing_net (url : string) : request_result :=
  if String.eqb url "http://b/health" then RequestError (Error "ECONNREFUSED")
  else RequestResponse 200.

(** A function whose promise is rejected without a reason, as by
    [Promise.reject()]. *)
Definition reasonless_fns : list FnSpec.t :=
  [ {| FnSpec.name := "cache";
       FnSpec.fn := Returned (Promised (Rejected Nullish)) |} ].

Definition reasonless_set : InspectionSet :=
  {| apis := None; functions := Some reasonless_fns |}.

(** A function whose promise never settles. *)
Definition hanging_fns : list FnSpec.t :=
  [ {| FnSpec.name := "slow"; FnSpec.fn := Returned (Promised Pending) |} ].

(** A host without CPU information: [os.cpus()] is empty. *)
Definition cpuless_host : Host :=
  {| memoryUsage := memoryUsage sample_host;
     totalmem := totalmem sample_host;
     uptime := uptime sample_host;
     loadavg := loadavg sample_host;
     cpus := 0;
     hostname := hostname sample_host;
     freemem := freemem sample_host |}.

(** The two endpoints without functions, and a set whose only function
    never settles. *)
Definition two_apis_set : InspectionSet :=
  {| apis := Some two_apis; functions := Some [] |}.

Definition hanging_set : InspectionSet :=
  {| apis := None; functions := Some hanging_fns |}.

(** A world with Raven in which the second endpoint refuses the connection
    and answers first. *)
Definition raven_world : World :=
  {| host := sample_host;
     disk := Resolved sample_disk;
     net := refusing_net;
     apis_order := [1; 0];
     functions_order := [];
     join_order := [2; 0; 1];
     raven := true |}.

(** * Properties *)

(** ** Fan-in *)

Section settle_all.
Context {St A : Type} (on_fulfil : nat -> A -> St -> St).

Lemma settle_all_all_resolved (vs : list A) (sched : list nat) st done :
  set_seq 0 (length vs) ⊆ done ∪ list_to_set sched ->
  settle_all on_fulfil (Resolved <$> vs) sched st done
  = Resolved (foldl (fulfil on_fulfil vs) st sched).
Proof.
  revert st done.
  induction sched as [|i rest IH]; intros st done Hcover; simpl.
  - rewrite length_fmap, bool_decide_true; [done | set_solver].
  - unfold fulfil at 2. rewrite list_lookup_fmap.
    destruct (vs !! i) as [v|] eqn:Hi; simpl.
    + apply IH. set_solver.
    + apply IH. intros k Hk. specialize (Hcover k Hk).
      assert (k ≠ i).
      { intros ->. apply elem_of_set_seq in Hk.
        apply lookup_ge_None in Hi. lia. }
      set_solver.
Qed.

(** A rejection that the schedule reaches rejects the aggregate, with the
    reason of the first rejection reached. *)
Lemma settle_all_rejects (outs : list (promise A)) sched st done i e :
  i ∈ sched -> outs !! i = Some (Rejected e) ->
  exists j e', j ∈ sched /\ outs !! j = Some (Rejected e')
    /\ settle_all on_fulfil outs sched st done = Rejected e'.
Proof.
  revert st done.
  induction sched as [|j rest IH]; intros st done Hin Hi.
  - by apply elem_of_nil in Hin.
  - simpl. destruct (outs !! j) as [[|v|e']|] eqn:Hj.
    + assert (i ∈ rest) as Hrest
        by (apply elem_of_cons in Hin as [->|]; [congruence | done]).
      destruct (IH st done Hrest Hi) as (k & e'' & ? & ? & ?).
      exists k, e''. set_solver.
    + assert (i ∈ rest) as Hrest
        by (apply elem_of_cons in Hin as [->|]; [congruence | done]).
      destruct (IH (on_fulfil j v st) ({[j]} ∪ done) Hrest Hi)
        as (k & e'' & ? & ? & ?).
      exists k, e''. set_solver.
    + exists j, e'. set_solver.
    + assert (i ∈ rest) as Hrest
        by (apply elem_of_cons in Hin as [->|]; [congruence | done]).
      destruct (IH st done Hrest Hi) as (k & e'' & ? & ? & ?).
      exists k, e''. set_solver.
Qed.

(** The aggregate never invents a rejection. *)
Lemma settle_all_rejected_inv (outs : list (promise A)) sched st done e :
  settle_all on_fulfil outs sched st done = Rejected e ->
  exists i, i ∈ sched /\ outs !! i = Some (Rejected e).
Proof.
  revert st done.
  induction sched as [|j rest IH]; intros st done; simpl.
  - by case_bool_decide.
  - destruct (outs !! j) as [[|v|e']|] eqn:Hj; intros Hrej.
    + destruct (IH _ _ Hrej) as (i & ? & ?). exists i. set_solver.
    + destruct (IH _ _ Hrej) as (i & ? & ?). exists i. set_solver.
    + injection Hrej as ->. exists j. set_solver.
    + destruct (IH _ _ Hrej) as (i & ? & ?). exists i. set_solver.
Qed.

(** Fulfilments that commute can be replayed in any order. *)
Lemma foldl_fulfil_permutation (vs : list A) (l1 l2 : list nat) :
  (forall st i j, fulfil on_fulfil vs (fulfil on_fulfil vs st i) j
     = fulfil on_fulfil vs (fulfil on_fulfil vs st j) i) ->
  l1 ≡ₚ l2 ->
  forall st, foldl (fulfil on_fulfil vs) st l1 = foldl (fulfil on_fulfil vs) st l2.
Proof.
  intros Hcomm Hperm.
  induction Hperm as [|x l1 l2 _ IH|x y l|l1 l2 l3 _ IH1 _ IH2]; intros st; simpl.
  - done.
  - apply IH.
  - by rewrite Hcomm.
  - by rewrite IH1, IH2.
Qed.
End settle_all.

Lemma seq_covers (n : nat) (sched : list nat) (done : gset nat) :
  sched ≡ₚ seq 0 n -> set_seq 0 n ⊆ done ∪ list_to_set sched.
Proof.
  intros Hperm k Hk. apply elem_of_set_seq in Hk.
  apply elem_of_union_r, elem_of_list_to_set.
  rewrite Hperm. apply elem_of_seq. lia.
Qed.

(** ** [Promise.map] *)

Section Promise_map.
Context {B : Type}.

Lemma foldl_store_length (vs : list B) sched (values : list (option B)) :
  length (foldl (fulfil store vs) values sched) = length values.
Proof.
  revert values. induction sched as [|i rest IH]; intros values; simpl; [done|].
  rewrite IH. unfold fulfil, store.
  destruct (vs !! i); [apply length_insert | done].
Qed.

Lemma foldl_store_lookup (vs : list B) sched (values : list (option B)) k v :
  length values = length vs -> k ∈ sched -> vs !! k = Some v ->
  foldl (fulfil store vs) values sched !! k = Some (Some v).
Proof.
  revert values.
  induction sched as [|i rest IH]; intros values Hlen Hin Hk.
  - by apply elem_of_nil in Hin.
  - simpl. destruct (decide (k ∈ rest)) as [Hrest|Hrest].
    + apply IH; [|done..]. unfold fulfil, store.
      destruct (vs !! i); [by rewrite length_insert | done].
    + assert (k = i) as -> by set_solver.
      assert (forall l : list (option B), l !! i = Some (Some v) ->
                foldl (fulfil store vs) l rest !! i = Some (Some v)) as Hkeep.
      { clear -Hrest. induction rest as [|j rest IH]; intros l Hl; simpl; [done|].
        apply IH; [set_solver|]. unfold fulfil, store.
        destruct (vs !! j); [|done].
        rewrite list_lookup_insert_ne; [done | set_solver]. }
      apply Hkeep. unfold fulfil, store. rewrite Hk.
      apply list_lookup_insert_eq. rewrite Hlen. by eapply lookup_lt_Some.
Qed.

(** When every mapped promise resolves, [Promise.map] resolves to the
    values in the order of the items, whatever the completion order. *)
Lemma Promise_map_resolved {A} (items : list A)
    (mapper : A -> completion (thenable B)) (vs : list B) (sched : list nat) :
  sched ≡ₚ seq 0 (length items) ->
  Forall2 (fun item v => assimilate (mapper item) = Resolved v) items vs ->
  Promise_map sched items mapper = Resolved (Some <$> vs).
Proof.
  intros Hperm Hall. unfold Promise_map.
  assert (map (fun item => assimilate (mapper item)) items = Resolved <$> vs) as ->.
  { clear Hperm.
    induction Hall as [|item v items vs Hv _ IH]; csimpl; [done|].
    by rewrite Hv, IH. }
  pose proof (Forall2_length _ _ _ Hall) as Hlen.
  rewrite settle_all_all_resolved;
    [|rewrite <- Hlen; by apply seq_covers].
  f_equal. apply list_eq. intros k.
  destruct (vs !! k) as [v|] eqn:Hk.
  - rewrite list_lookup_fmap, Hk. simpl.
    apply foldl_store_lookup; [by rewrite length_replicate | | done].
    rewrite Hperm. apply elem_of_seq. apply lookup_lt_Some in Hk. lia.
  - rewrite list_lookup_fmap, Hk. simpl.
    apply lookup_ge_None. rewrite foldl_store_length, length_replicate.
    apply lookup_ge_None in Hk. lia.
Qed.

(** A mapped promise that rejects makes [Promise.map] reject, with the
    reason of one of the rejecting items. *)
Lemma Promise_map_rejects {A} (items : list A)
    (mapper : A -> completion (thenable B)) (sched : list nat) i item e :
  sched ≡ₚ seq 0 (length items) ->
  items !! i = Some item -> assimilate (mapper item) = Rejected e ->
  exists j item' e', items !! j = Some item'
    /\ assimilate (mapper item') = Rejected e'
    /\ Promise_map sched items mapper = Rejected e'.
Proof.
  intros Hperm Hi He. unfold Promise_map.
  edestruct (settle_all_rejects store
               (map (fun item => assimilate (mapper item)) items) sched
               (replicate (length items) None) ∅ i e)
    as (j & e' & _ & Hj & Hrej).
  - rewrite Hperm. apply elem_of_seq. apply lookup_lt_Some in Hi. lia.
  - change (map ?f items) with (f <$> items).
    by rewrite list_lookup_fmap, Hi; simpl; rewrite He.
  - change (map ?f items) with (f <$> items) in Hj.
    rewrite list_lookup_fmap in Hj.
    destruct (items !! j) as [item'|] eqn:Hj'; [|done].
    injection Hj as Hj. by exists j, item', e'.
Qed.
End Promise_map.

(** ** Result reducer *)

Lemma allOk_from (a : bool) (bs : list bool) :
  foldl (fun flag n => js_and n flag) (Some a) (Some <$> bs)
  = Some (a && and_reduce bs).
Proof.
  revert a. induction bs as [|b bs IH]; intros a; csimpl.
  - by rewrite andb_true_r.
  - destruct b; simpl; rewrite IH; [done|].
    by rewrite andb_false_r.
Qed.

Lemma allOk_booleans (bs : list bool) : allOk (Some <$> bs) = Some (and_reduce bs).
Proof. unfold allOk. by rewrite allOk_from. Qed.

(** The row that [statusReply] pushes for a spec and its outcome. *)
Lemma statusReply_each_paired {A} `{Named A} (specs : list A) (bs : list bool)
    (services : list CheckResult.t) :
  length specs = length bs ->
  statusReply_each (lodash_zip specs (Some <$> bs)) services
  = Returned (services ++
      zip_with (fun spec b => {| CheckResult.name := name_of spec;
                                 CheckResult.active := Some b |}) specs bs).
Proof.
  revert bs services.
  induction specs as [|spec specs IH]; intros [|b bs] services Hlen;
    try discriminate; csimpl.
  - by rewrite app_nil_r.
  - rewrite IH by (simpl in Hlen; lia). by rewrite <- app_assoc.
Qed.

Lemma statusReply_paired {A} `{Named A} (specs : list A) (bs : list bool) :
  length specs = length bs ->
  statusReply specs (Some <$> bs)
  = Returned
      {| CategoryReport.status := Some (and_reduce bs);
         CategoryReport.services :=
           zip_with (fun spec b => {| CheckResult.name := name_of spec;
                                      CheckResult.active := Some b |}) specs bs |}.
Proof.
  intros Hlen. unfold statusReply.
  by rewrite statusReply_each_paired, allOk_booleans.
Qed.

(** C4: for N boolean outcomes paired with N CheckSpecs, [statusReply]
    returns a report whose [services] has length N, whose [active] flags are
    the outcomes, and whose [status] is their AND-reduction; for N = 0 the
    status is [true]. *)
Theorem statusReply_length_and_status {A} `{Named A}
    (specs : list A) (outcomes : list bool) :
  length specs = length outcomes ->
  exists r, statusReply specs (Some <$> outcomes) = Returned r
    /\ length (CategoryReport.services r) = length outcomes
    /\ CheckResult.active <$> CategoryReport.services r = Some <$> outcomes
    /\ CategoryReport.status r = Some (and_reduce outcomes)
    /\ (outcomes = [] -> CategoryReport.status r = Some true).
Proof.
  intros Hlen. eexists. split; [by apply statusReply_paired|]. simpl.
  repeat split.
  - rewrite length_zip_with. lia.
  - clear -Hlen. revert outcomes Hlen.
    induction specs as [|spec specs IH]; intros [|b bs] Hlen;
      try discriminate; csimpl; [done|].
    f_equal. apply IH. simpl in Hlen. lia.
  - by intros ->.
Qed.

Lemma statusReply_length_and_status_witness :
  exists r,
    statusReply [ {| ApiSpec.name := "svc-a"; ApiSpec.url := "http://a/health" |};
                  {| ApiSpec.name := "svc-b"; ApiSpec.url := "http://b/health" |} ]
                (Some <$> [true; false]) = Returned r
    /\ length (CategoryReport.services r) = 2
    /\ CheckResult.active <$> CategoryReport.services r = Some <$> [true; false]
    /\ CategoryReport.status r = Some false
    /\ ([true; false] = [] -> CategoryReport.status r = Some true).
Proof.
  apply (statusReply_length_and_status
           [ {| ApiSpec.name := "svc-a"; ApiSpec.url := "http://a/health" |};
             {| ApiSpec.name := "svc-b"; ApiSpec.url := "http://b/health" |} ]
           [true; false]).
  reflexivity.
Defined.

(** C5: for CheckSpecs and outcomes of the same length, the list built by
    [statusReply] has the length of the specs, and its i-th entry carries the
    name of the i-th spec and the i-th outcome; a prober whose i-th probe
    resolves to the i-th outcome resolves to that same report for every order
    in which the probes complete. *)
Theorem statusReply_positional {A} `{Named A}
    (specs : list A) (outcomes : list bool) :
  length specs = length outcomes ->
  exists r, statusReply specs (Some <$> outcomes) = Returned r
    /\ length (CategoryReport.services r) = length specs
    /\ (forall i spec b, specs !! i = Some spec -> outcomes !! i = Some b ->
          CategoryReport.services r !! i
          = Some {| CheckResult.name := name_of spec;
                    CheckResult.active := Some b |})
    /\ (forall (mapper : A -> completion (thenable bool)) (sched : list nat),
          sched ≡ₚ seq 0 (length specs) ->
          Forall2 (fun spec b => assimilate (mapper spec) = Resolved b)
            specs outcomes ->
          promise_then (Promise_map sched specs mapper) (then_statusReply specs)
          = Resolved (Report r)).
Proof.
  intros Hlen. eexists. split; [by apply statusReply_paired|]. simpl.
  repeat split.
  - rewrite length_zip_with. lia.
  - intros i spec b Hspec Hb. rewrite lookup_zip_with, Hspec. simpl.
    by rewrite Hb.
  - intros mapper sched Hperm Hall.
    rewrite (Promise_map_resolved specs mapper outcomes sched Hperm Hall).
    simpl. unfold then_statusReply. by rewrite statusReply_paired.
Qed.

Lemma statusReply_positional_witness :
  exists r,
    statusReply mixed_fns (Some <$> [false; true]) = Returned r
    /\ CategoryReport.services r !! 1
       = Some {| CheckResult.name := "queue"; CheckResult.active := Some true |}
    /\ executeFunctions [1; 0] (Some mixed_fns) = Resolved (Report r).
Proof.
  destruct (statusReply_positional mixed_fns [false; true] eq_refl)
    as (r & Hr & _ & Hpos & Horder).
  exists r. split; [exact Hr|]. split.
  - exact (Hpos 1 _ true eq_refl eq_refl).
  - apply (Horder (fun serviceObj => FnSpec.fn serviceObj) [1; 0]
             (perm_swap 0 1 [])).
    repeat constructor.
Defined.

(** ** Host metrics collector *)

(** [nearest_integer] is within a half of the number, halves going up. *)
Lemma nearest_integer_spec (s : bool) (m : positive) (e : Z) :
  (inject_Z (nearest_integer s m e) - (1 # 2) <= SF2Q (S754_finite s m e)
   /\ SF2Q (S754_finite s m e) < inject_Z (nearest_integer s m e) + (1 # 2))%Q.
Proof.
  unfold SF2Q, nearest_integer.
  set (M := cond_Zopp s (Z.pos m)).
  destruct e as [|p|p].
  - rewrite Z.mul_1_r. change (2 ^ 0)%Q with 1%Q. split; lra.
  - rewrite inject_Z_mult.
    rewrite (Zpower_Qpower 2 (Z.pos p)) by lia.
    change (inject_Z 2) with 2%Q. split; lra.
  - set (B := (2 ^ Z.pos p)%Z).
    assert (0 < B)%Z as HB by (apply Z.pow_pos_nonneg; lia).
    replace (2 ^ (Z.pos p + 1))%Z with (2 * B)%Z
      by (unfold B; rewrite Z.pow_add_r by lia; lia).
    pose proof (Z.div_mod (2 * M + B) (2 * B) ltac:(lia)) as Hdm.
    pose proof (Z.mod_pos_bound (2 * M + B) (2 * B) ltac:(lia)) as Hmod.
    set (k := ((2 * M + B) / (2 * B))%Z) in *.
    assert (2 * B * k <= 2 * M + B < 2 * B * k + 2 * B)%Z as [Hlo Hhi] by lia.
    assert ((2 ^ Z.neg p)%Q == / inject_Z B)%Q as ->.
    { unfold B. rewrite (Zpower_Qpower 2 (Z.pos p)) by lia. reflexivity. }
    set (b := inject_Z B). set (x := inject_Z M). set (kq := inject_Z k).
    assert (2 * (b * kq) <= 2 * x + b)%Q as Hlo'.
    { unfold b, x, kq. change 2%Q with (inject_Z 2).
      rewrite <- !inject_Z_mult, <- inject_Z_plus, <- Zle_Qle. lia. }
    assert (2 * x + b < 2 * (b * kq) + 2 * b)%Q as Hhi'.
    { unfold b, x, kq. change 2%Q with (inject_Z 2).
      rewrite <- !inject_Z_mult, <- !inject_Z_plus, <- Zlt_Qlt. lia. }
    assert (0 < b)%Q as HBq by (unfold b; rewrite <- (Zlt_Qlt 0); exact HB).
    assert (x * / b == x / b)%Q as -> by reflexivity.
    split.
    + apply Qle_shift_div_l; [done|].
      assert ((kq - (1 # 2)) * b == b * kq - b * (1 # 2))%Q as -> by ring.
      set (t := (b * kq)%Q) in *. lra.
    + apply Qlt_shift_div_r; [done|].
      assert ((kq + (1 # 2)) * b == b * kq + b * (1 # 2))%Q as -> by ring.
      set (t := (b * kq)%Q) in *. lra.
Qed.

(** [Math.round(v * 100) / 100] rounds every double to two decimals in
    double arithmetic. *)
Lemma double_rounded_2dp_round (v : jsnum) :
  double_rounded_2dp v (jsdiv (Math_round (jsmul v (num 100))) (num 100)).
Proof.
  unfold double_rounded_2dp.
  destruct (jsmul v (num 100)) as [s|s| |s m e]; try reflexivity.
  exists (nearest_integer s m e). split; [apply nearest_integer_spec | reflexivity].
Qed.

(** Once the disk query has settled the collector resolves, and the disk
    property is the only one that depends on the query. *)
Lemma healthCheckServer_settled (h : Host) (d : promise DiskData) :
  d <> Pending ->
  exists m, healthCheckServer h d = Resolved m
    /\ forall k, k <> "disk_root_use_percent" ->
         m !! k = healthCheckServer_sync h !! k.
Proof.
  intros Hd. destruct d as [|data|err]; [done|..]; simpl;
    (eexists; split; [reflexivity|]); intros k Hk; by rewrite lookup_insert_ne.
Qed.

(** C7: the collector never rejects; when the disk query fails it resolves
    to a record whose [disk_root_use_percent] is -1 and whose other six
    properties are present, with the values they have when the query
    succeeds. *)
Theorem healthCheckServer_disk_failure (h : Host) :
  (forall d e, healthCheckServer h d <> Rejected e)
  /\ forall err, exists m,
       healthCheckServer h (Rejected err) = Resolved m
       /\ m !! "disk_root_use_percent" = Some (MNum (num (-1)))
       /\ dom m = {[ "process_memory_used_percent"; "uptime_minutes";
                     "cpu_one_minute_average_percent";
                     "cpu_five_minute_average_percent"; "hostname";
                     "os_free_memory_mb"; "disk_root_use_percent" ]}
       /\ forall data, exists m',
            healthCheckServer h (Resolved data) = Resolved m'
            /\ forall k, k <> "disk_root_use_percent" -> m !! k = m' !! k.
Proof.
  split.
  - intros [|data|err] e; simpl; discriminate.
  - intros err. eexists. split; [reflexivity|]. split; [|split].
    + by rewrite lookup_insert_eq.
    + unfold healthCheckServer_sync.
      rewrite !dom_insert_L, dom_empty_L. set_solver.
    + intros data. eexists. split; [reflexivity|].
      intros k Hk. by rewrite !lookup_insert_ne.
Qed.

Lemma healthCheckServer_disk_failure_witness :
  exists m,
    healthCheckServer sample_host (Rejected (Error "EACCES")) = Resolved m
    /\ m !! "disk_root_use_percent" = Some (MNum (num (-1)))
    /\ m !! "hostname" = Some (MStr "box").
Proof.
  destruct (healthCheckServer_disk_failure sample_host) as [_ Hfail].
  destruct (Hfail (Error "EACCES")) as (m & Hm & Hdisk & _ & Hrest).
  exists m. split; [exact Hm|]. split; [exact Hdisk|].
  destruct (Hrest sample_disk) as (m' & Hm' & Hsame).
  rewrite (Hsame "hostname") by discriminate.
  injection Hm' as <-. reflexivity.
Defined.

(** C9, as the collector computes it: once the disk query has settled, the
    record holds the heap total over the total memory as a percentage, the
    uptime in minutes, and the 1 and 5 minute load averages per CPU as
    percentages, each computed and rounded to two decimals in double
    arithmetic. *)
Theorem healthCheckServer_formulas (h : Host) (d : promise DiskData) :
  d <> Pending ->
  exists m mem up cpu1 cpu5,
    healthCheckServer h d = Resolved m
    /\ m !! "process_memory_used_percent" = Some (MNum mem)
    /\ double_rounded_2dp (percent_of (heapTotal (memoryUsage h)) (totalmem h)) mem
    /\ m !! "uptime_minutes" = Some (MNum up)
    /\ double_rounded_2dp (jsdiv (uptime h) (num 60)) up
    /\ m !! "cpu_one_minute_average_percent" = Some (MNum cpu1)
    /\ double_rounded_2dp
         (percent_of (loadavg h).1.1 (num (Z.of_nat (cpus h)))) cpu1
    /\ m !! "cpu_five_minute_average_percent" = Some (MNum cpu5)
    /\ double_rounded_2dp
         (percent_of (loadavg h).1.2 (num (Z.of_nat (cpus h)))) cpu5.
Proof.
  intros Hd.
  destruct (healthCheckServer_settled h d Hd) as (m & Hm & Hsync).
  exists m. do 4 eexists. split; [done|].
  rewrite !Hsync by done. unfold healthCheckServer_sync.
  split_and!.
  - rewrite !lookup_insert_ne by done. by rewrite lookup_insert_eq.
  - apply double_rounded_2dp_round.
  - rewrite !lookup_insert_ne by done. by rewrite lookup_insert_eq.
  - apply double_rounded_2dp_round.
  - rewrite !lookup_insert_ne by done. by rewrite lookup_insert_eq.
  - apply (double_rounded_2dp_round
             (percent_of (loadavg h).1.1 (num (Z.of_nat (cpus h))))).
  - rewrite !lookup_insert_ne by done. by rewrite lookup_insert_eq.
  - apply (double_rounded_2dp_round
             (percent_of (loadavg h).1.2 (num (Z.of_nat (cpus h))))).
Qed.

Lemma healthCheckServer_formulas_witness :
  exists m mem up cpu1 cpu5,
    healthCheckServer sample_host (Resolved sample_disk) = Resolved m
    /\ m !! "process_memory_used_percent" = Some (MNum mem)
    /\ double_rounded_2dp (percent_of (num 200) (num 1000)) mem
    /\ m !! "uptime_minutes" = Some (MNum up)
    /\ double_rounded_2dp (jsdiv (num 90) (num 60)) up
    /\ m !! "cpu_one_minute_average_percent" = Some (MNum cpu1)
    /\ double_rounded_2dp (percent_of (double 1 (-1)) (num 4)) cpu1
    /\ m !! "cpu_five_minute_average_percent" = Some (MNum cpu5)
    /\ double_rounded_2dp (percent_of (double 1 (-2)) (num 4)) cpu5.
Proof.
  apply (healthCheckServer_formulas sample_host (Resolved sample_disk)).
  discriminate.
Defined.

(** The doubles within the claimed distance of a small rational are the
    quotients of one integer only. *)
Lemma rounded_2dp_unique (v : Q) (k0 : Z) (r : jsnum) :
  (inject_Z k0 - (1 # 2) < v * 100 /\ v * 100 < inject_Z k0 + (1 # 2))%Q ->
  rounded_2dp v r -> r = jsdiv (num k0) (num 100).
Proof.
  intros [Hlo Hhi] (k & Hk & ->).
  apply Qabs_Qle_condition in Hk as [Hk1 Hk2].
  assert (inject_Z k / 100 == inject_Z k * (1 # 100))%Q as Hdiv by reflexivity.
  rewrite Hdiv in Hk1, Hk2.
  assert (inject_Z k0 - 1 < inject_Z k /\ inject_Z k < inject_Z k0 + 1)%Q
    as [H1 H2] by (split; lra).
  assert (k = k0) as ->; [|done].
  unfold Qlt in H1, H2. simpl in H1, H2. lia.
Qed.

(** C9 fails as stated, twice. The memory percentage is not computed from
    the heap in use: on the sample host (heap used 100, heap total 200,
    memory 1000) the record holds 20, which is not 10 rounded to two
    decimals. And the rounding is that of double arithmetic: after 0.3
    seconds the record holds an uptime of 0.01 minutes, where 0.3 / 60
    rounded to two decimals is 0. *)
Lemma memory_percent_not_heapUsed :
  (exists m,
     healthCheckServer sample_host (Resolved sample_disk) = Resolved m
     /\ m !! "process_memory_used_percent" = Some (MNum (num 20))
     /\ ~ rounded_2dp (SF2Q (heapUsed (memoryUsage sample_host))
                       / SF2Q (totalmem sample_host) * 100) (num 20))
  /\ (exists m,
        healthCheckServer young_host (Resolved sample_disk) = Resolved m
        /\ m !! "uptime_minutes" = Some (MNum (jsdiv (num 1) (num 100)))
        /\ ~ rounded_2dp (SF2Q (uptime young_host) / 60)
               (jsdiv (num 1) (num 100))).
Proof.
  split.
  - eexists. split; [reflexivity|]. split; [by vm_compute|].
    intros Hround. apply (rounded_2dp_unique _ 1000) in Hround.
    + by vm_compute in Hround.
    + by vm_compute.
  - eexists. split; [reflexivity|]. split; [by vm_compute|].
    intros Hround. apply (rounded_2dp_unique _ 0) in Hround.
    + by vm_compute in Hround.
    + by vm_compute.
Qed.

(** ** Endpoint prober *)

(** The probe resolves to [true] exactly when the request is answered with
    status 200. *)
Lemma ensureHttp200_true_iff (net : string -> request_result) (url : string) :
  ensureHttp200 net url = Resolved true <-> net url = RequestResponse 200.
Proof.
  unfold ensureHttp200. destruct (net url) as [error|statusCode]; simpl.
  - split; discriminate.
  - split.
    + intros [= Hc]. apply Z.eqb_eq in Hc. by subst.
    + by intros [= ->].
Qed.

(** Any other status code resolves to [false]. *)
Lemma ensureHttp200_other_status (net : string -> request_result) url statusCode :
  net url = RequestResponse statusCode -> statusCode <> 200%Z ->
  ensureHttp200 net url = Resolved false.
Proof.
  intros Hnet Hc. unfold ensureHttp200. rewrite Hnet. simpl.
  by apply Z.eqb_neq in Hc as ->.
Qed.

Lemma settle_all_nil {St A} (on_fulfil : nat -> A -> St -> St) sched st done :
  settle_all on_fulfil [] sched st done = Resolved st.
Proof.
  induction sched as [|i rest IH]; simpl; [|done].
  rewrite bool_decide_true; [done | set_solver].
Qed.

(** A single probe that rejects, once the schedule reaches it, rejects the
    map. *)
Lemma Promise_map_single_rejected {A B} (item : A)
    (mapper : A -> completion (thenable B)) (sched : list nat) e :
  0 ∈ sched -> assimilate (mapper item) = Rejected e ->
  Promise_map sched [item] mapper = Rejected e.
Proof.
  intros Hin He. unfold Promise_map.
  edestruct (settle_all_rejects (@store B) [assimilate (mapper item)] sched
               (replicate 1 None) ∅ 0 e) as (j & e' & _ & Hj & Hrej);
    [done | by simpl; rewrite He |].
  simpl in *. rewrite Hrej. f_equal.
  destruct j as [|j]; simpl in Hj; [congruence | done].
Qed.

(** C1 at a failing request: when [request] reports a transport error the
    probe does not resolve to [false]; the promise is rejected with the
    error, and so is the endpoint prober. *)
Theorem ensureHttp200_error_rejects (error : js_error) (name url : string) :
  ensureHttp200 (fun _ => RequestError error) url = Rejected error
  /\ ensureHttp200 (fun _ => RequestError error) url <> Resolved false
  /\ executeApis (fun _ => RequestError error) [0]
       (Some [ {| ApiSpec.name := name; ApiSpec.url := url |} ])
     = Rejected error.
Proof.
  split_and!; [done | done |].
  unfold executeApis.
  rewrite (Promise_map_single_rejected _ _ _ error); [done | set_solver | done].
Qed.

(** ** Orchestrator *)

Lemma then_assign_rejected_iff {A} (p : promise A) key (field : A -> report_field) e :
  then_assign p key field = Rejected e <-> p = Rejected e.
Proof. destruct p; simpl; split; congruence. Qed.

Lemma healthCheckServer_not_rejected (h : Host) (d : promise DiskData) e :
  healthCheckServer h d <> Rejected e.
Proof. destruct d; simpl; discriminate. Qed.

(** The three assignments of [orchestrate] write different keys: the joined
    [result] does not depend on the order in which the branches settle. *)
Lemma Promise_join_assignments (sched : list nat) (k0 k1 k2 : string)
    (v0 v1 v2 : report_field) (result : gmap string report_field) :
  sched ≡ₚ seq 0 3 -> k0 <> k1 -> k0 <> k2 -> k1 <> k2 ->
  Promise_join sched
    [ Resolved (fun result => <[ k0 := v0 ]> result);
      Resolved (fun result => <[ k1 := v1 ]> result);
      Resolved (fun result => <[ k2 := v2 ]> result) ] result
  = Resolved (<[ k2 := v2 ]> (<[ k1 := v1 ]> (<[ k0 := v0 ]> result))).
Proof.
  intros Hperm H01 H02 H12. unfold Promise_join.
  set (fs := [ (fun result : gmap string report_field => <[ k0 := v0 ]> result);
               (fun result => <[ k1 := v1 ]> result);
               (fun result => <[ k2 := v2 ]> result) ]).
  change (settle_all (fun _ assign st => assign st) (Resolved <$> fs) sched result ∅
          = Resolved (foldl (fulfil (fun _ assign st => assign st) fs) result (seq 0 3))).
  rewrite settle_all_all_resolved by (by apply seq_covers).
  f_equal. apply foldl_fulfil_permutation; [|done].
  intros st [|[|[|i]]] [|[|[|j]]]; unfold fulfil; simpl; try done;
    by apply insert_insert_ne.
Qed.

(** When the three branches resolve, so does [orchestrate], with status 200
    and the three properties. *)
Lemma orchestrate_resolved (w : World) (s : InspectionSet) av fv m :
  join_order w ≡ₚ seq 0 3 ->
  executeApis (net w) (apis_order w) (apis s) = Resolved av ->
  executeFunctions (functions_order w) (functions s) = Resolved fv ->
  healthCheckServer (host w) (disk w) = Resolved m ->
  orchestrate w (InspectionSetObj s)
  = Returned (Resolved
      {| status := 200;
         data := <[ "server" := FServer m ]>
                   (<[ "functions" := FCategory fv ]>
                      (<[ "apis" := FCategory av ]> ∅)) |}).
Proof.
  intros Hperm Ha Hf Hm. unfold orchestrate. simpl.
  rewrite Ha, Hf, Hm. simpl.
  by rewrite Promise_join_assignments.
Qed.

(** When the endpoint prober or the function prober rejects, so does
    [orchestrate], with the reason of one of them. *)
Lemma orchestrate_rejected (w : World) (s : InspectionSet) e :
  join_order w ≡ₚ seq 0 3 ->
  executeApis (net w) (apis_order w) (apis s) = Rejected e
  \/ executeFunctions (functions_order w) (functions s) = Rejected e ->
  exists e',
    orchestrate w (InspectionSetObj s) = Returned (Rejected e')
    /\ (executeApis (net w) (apis_order w) (apis s) = Rejected e'
        \/ executeFunctions (functions_order w) (functions s) = Rejected e').
Proof.
  intros Hperm Hrej. unfold orchestrate. simpl.
  set (ps := [ then_assign (executeApis (net w) (apis_order w) (apis s))
                 "apis" FCategory;
               then_assign (executeFunctions (functions_order w) (functions s))
                 "functions" FCategory;
               then_assign (healthCheckServer (host w) (disk w)) "server" FServer ]).
  assert (exists i, i ∈ join_order w /\ ps !! i = Some (Rejected e))
    as (i & Hin & Hi).
  { destruct Hrej as [Ha|Hf].
    - exists 0. split; [rewrite Hperm; set_solver|].
      simpl. f_equal. by apply then_assign_rejected_iff.
    - exists 1. split; [rewrite Hperm; set_solver|].
      simpl. f_equal. by apply then_assign_rejected_iff. }
  destruct (settle_all_rejects (fun _ assign st => assign st) ps (join_order w)
              ∅ ∅ i e Hin Hi) as (j & e' & _ & Hj & Hjoin).
  exists e'. unfold Promise_join. rewrite Hjoin. split; [done|].
  destruct j as [|[|[|j]]]; simpl in Hj; try discriminate.
  - left. injection Hj as Hj. by apply then_assign_rejected_iff in Hj.
  - right. injection Hj as Hj. by apply then_assign_rejected_iff in Hj.
  - injection Hj as Hj. apply then_assign_rejected_iff in Hj.
    by apply healthCheckServer_not_rejected in Hj.
Qed.

(** The envelope of [orchestrate] always carries status 200. *)
Lemma orchestrate_status (w : World) (v : js_value) (info : Envelope) :
  orchestrate w v = Returned (Resolved info) -> status info = 200%Z.
Proof.
  unfold orchestrate.
  destruct (get_apis v); [|discriminate].
  destruct (get_functions v); [|discriminate].
  intros [= Hjoin]. revert Hjoin.
  match goal with |- context [Promise_join ?o ?ps ?r] =>
    destruct (Promise_join o ps r) end; simpl; [discriminate | | discriminate].
  by intros [= <-].
Qed.

Lemma executeFunctions_empty (sched : list nat) :
  executeFunctions sched (Some [])
  = Resolved (Report {| CategoryReport.status := Some true;
                        CategoryReport.services := [] |}).
Proof.
  unfold executeFunctions, Promise_map. simpl. by rewrite settle_all_nil.
Qed.

(** C6: when [apis] is absent and the function prober and the collector
    resolve, the report is produced and holds the [apis] key with the empty
    array, which has neither [status] nor [services]; the [functions] and
    [server] properties are what the function prober and the collector
    resolved to. The same holds for an absent [functions]. *)
Theorem absent_category_placeholder (w : World) (m : gmap string metric) :
  join_order w ≡ₚ seq 0 3 ->
  healthCheckServer (host w) (disk w) = Resolved m ->
  (forall fs fv,
      executeFunctions (functions_order w) fs = Resolved fv ->
      exists info,
        orchestrate w (InspectionSetObj {| apis := None; functions := fs |})
        = Returned (Resolved info)
        /\ data info !! "apis" = Some (FCategory EmptyArray)
        /\ data info !! "functions" = Some (FCategory fv)
        /\ data info !! "server" = Some (FServer m))
  /\ (forall specs av,
        executeApis (net w) (apis_order w) specs = Resolved av ->
        exists info,
          orchestrate w (InspectionSetObj {| apis := specs; functions := None |})
          = Returned (Resolved info)
          /\ data info !! "functions" = Some (FCategory EmptyArray)
          /\ data info !! "apis" = Some (FCategory av)
          /\ data info !! "server" = Some (FServer m))
  /\ category_status EmptyArray = None
  /\ category_services EmptyArray = None.
Proof.
  intros Hperm Hm. split_and!; [| |done..].
  - intros fs fv Hf. eexists. split.
    + by apply (orchestrate_resolved w _ EmptyArray fv m).
    + simpl. by simplify_map_eq.
  - intros specs av Ha. eexists. split.
    + by apply (orchestrate_resolved w _ av EmptyArray m).
    + simpl. by simplify_map_eq.
Qed.

Lemma sample_join_order : [2; 0; 1] ≡ₚ seq 0 3.
Proof. exact (Permutation_cons_append [0; 1] 2). Qed.

Lemma absent_category_placeholder_witness :
  exists info,
    orchestrate (sample_world timeout_net [] [] [2; 0; 1])
      (InspectionSetObj {| apis := None; functions := Some [] |})
    = Returned (Resolved info)
    /\ data info !! "apis" = Some (FCategory EmptyArray)
    /\ data info !! "functions"
       = Some (FCategory (Report {| CategoryReport.status := Some true;
                                    CategoryReport.services := [] |})).
Proof.
  destruct (absent_category_placeholder
              (sample_world timeout_net [] [] [2; 0; 1])
              _ sample_join_order eq_refl) as (Habsent & _).
  destruct (Habsent (Some []) _ eq_refl) as (info & Hinfo & Ha & Hf & _).
  exists info. auto.
Defined.

(** ** Function prober *)

(** C8: when a check function throws or returns a promise that rejects,
    the function prober is rejected with the error of a failing function,
    for every completion order; it does not resolve, so no outcome is turned
    into [false]; and the rejection reaches the join of [orchestrate], which
    is rejected too. *)
Theorem function_failure_propagates (w : World) (s : InspectionSet)
    (fns : list FnSpec.t) (i : nat) (spec : FnSpec.t) (e : js_reason) :
  functions s = Some fns ->
  fns !! i = Some spec ->
  FnSpec.fn spec = Threw e \/ FnSpec.fn spec = Returned (Promised (Rejected e)) ->
  functions_order w ≡ₚ seq 0 (length fns) ->
  join_order w ≡ₚ seq 0 3 ->
  (exists j spec' e',
      fns !! j = Some spec'
      /\ assimilate (FnSpec.fn spec') = Rejected e'
      /\ executeFunctions (functions_order w) (Some fns) = Rejected e')
  /\ (forall v, executeFunctions (functions_order w) (Some fns) <> Resolved v)
  /\ exists e'', orchestrate w (InspectionSetObj s) = Returned (Rejected e'').
Proof.
  intros Hfns Hi Hfail Hsched Hjoin.
  assert (assimilate (FnSpec.fn spec) = Rejected e) as He
    by (destruct Hfail as [-> | ->]; done).
  destruct (Promise_map_rejects fns (fun serviceObj => FnSpec.fn serviceObj)
              (functions_order w) i spec e Hsched Hi He)
    as (j & spec' & e' & Hj & He' & Hmap).
  assert (executeFunctions (functions_order w) (Some fns) = Rejected e') as Hexec
    by (unfold executeFunctions; by rewrite Hmap).
  split_and!.
  - by exists j, spec', e'.
  - intros v. by rewrite Hexec.
  - destruct (orchestrate_rejected w s e' Hjoin) as (e'' & Ho & _);
      [right; by rewrite Hfns | by exists e''].
Qed.

Lemma function_failure_propagates_witness :
  (exists j spec' e',
      failing_fns !! j = Some spec'
      /\ assimilate (FnSpec.fn spec') = Rejected e'
      /\ executeFunctions (functions_order failing_world) (Some failing_fns)
         = Rejected e')
  /\ (forall v, executeFunctions (functions_order failing_world) (Some failing_fns)
                <> Resolved v)
  /\ exists e'',
       orchestrate failing_world (InspectionSetObj failing_set)
       = Returned (Rejected e'').
Proof.
  exact (function_failure_propagates failing_world failing_set failing_fns
           1 _ (Error "boom") eq_refl eq_refl (or_introl eq_refl)
           (perm_swap 0 1 []) sample_join_order).
Defined.

(** ** Route handler adapter *)

(** [orchestrate] throws only when it is given no InspectionSet, and then
    a TypeError. *)
Lemma orchestrate_throws_error (w : World) (v : js_value) (r : js_reason) :
  orchestrate w v = Threw r ->
  v = Undefined
  /\ r = ErrorObject (Error "Cannot read property 'apis' of undefined").
Proof. destruct v; [|done..]. by intros [= <-]. Qed.

(** C2 on the code, for every order in which the three branches settle.
    (a), (b): when the probers and the collector resolve, whatever the
    flags, the handler sends the envelope, of status 200, with code 200.
    (c): when [orchestrate] throws, which it does for a missing
    InspectionSet, the handler sends the degraded body with code 200.
    (d): when a prober is rejected, the orchestration is rejected with the
    reason of a rejected prober; the handler sends the degraded body with
    code 200 when that reason is an [Error] object or another value, but
    sends nothing when the reason is [undefined] or [null], as reading its
    [message] throws inside the [catch] callback. In no case is a response
    with another code sent, or more than one response. *)
Theorem route_handler_responses (w : World) (s : InspectionSet)
    (req : js_value) (fx : Effects) :
  join_order w ≡ₚ seq 0 3 ->
  (forall av fv m,
      executeApis (net w) (apis_order w) (apis s) = Resolved av ->
      executeFunctions (functions_order w) (functions s) = Resolved fv ->
      healthCheckServer (host w) (disk w) = Resolved m ->
      exists info,
        status info = 200%Z
        /\ route_handler w (InspectionSetObj s) req fx
           = {| sent := sent fx ++ [ {| code := 200; body := ReportBody info |} ];
                captured := captured fx |})
  /\ (forall v r, orchestrate w v = Threw r ->
        exists e, r = ErrorObject e
          /\ sent (route_handler w v req fx)
             = sent fx ++ [ {| code := 200;
                               body := MessageBody 200 (message e) |} ])
  /\ orchestrate w Undefined
     = Threw (Error "Cannot read property 'apis' of undefined")
  /\ ((exists r, executeApis (net w) (apis_order w) (apis s) = Rejected r
                 \/ executeFunctions (functions_order w) (functions s)
                    = Rejected r) ->
      exists r,
        (executeApis (net w) (apis_order w) (apis s) = Rejected r
         \/ executeFunctions (functions_order w) (functions s) = Rejected r)
        /\ orchestrate w (InspectionSetObj s) = Returned (Rejected r)
        /\ match r with
           | ErrorObject e =>
               sent (route_handler w (InspectionSetObj s) req fx)
               = sent fx ++ [ {| code := 200;
                                 body := MessageBody 200 (message e) |} ]
           | OtherValue =>
               sent (route_handler w (InspectionSetObj s) req fx)
               = sent fx ++ [ {| code := 200;
                                 body := UndefinedMessageBody 200 |} ]
           | Nullish => route_handler w (InspectionSetObj s) req fx = fx
           end)
  /\ (forall v, exists new,
        sent (route_handler w v req fx) = sent fx ++ new
        /\ Forall (fun response => code response = 200%Z) new
        /\ length new <= 1).
Proof.
  intros Hperm. split_and!.
  - intros av fv m Ha Hf Hm. eexists. split; [|unfold route_handler].
    2: { by rewrite (orchestrate_resolved w s av fv m Hperm Ha Hf Hm). }
    done.
  - intros v r Ho. destruct (orchestrate_throws_error w v r Ho) as [-> ->].
    eexists. split; [done|]. unfold route_handler. by rewrite Ho.
  - done.
  - intros [r Hr].
    destruct (orchestrate_rejected w s r Hperm Hr) as (r' & Ho & Hr').
    exists r'. split_and!; [done..|].
    unfold route_handler. rewrite Ho.
    destruct r' as [e| |]; simpl; [by destruct (raven w) | done | by destruct (raven w)].
  - intros v. unfold route_handler.
    destruct (orchestrate w v) as [[|info|err]|err] eqn:Ho.
    + exists []. split_and!; [by rewrite app_nil_r | constructor | simpl; lia].
    + exists [ {| code := 200; body := ReportBody info |} ].
      simpl. rewrite (orchestrate_status w v info Ho).
      split_and!; [done | by repeat constructor | simpl; lia].
    + destruct err as [e| |]; simpl.
      * eexists. split_and!;
          [by destruct (raven w) | by repeat constructor | simpl; lia].
      * exists []. split_and!; [by rewrite app_nil_r | constructor | simpl; lia].
      * eexists. split_and!;
          [by destruct (raven w) | by repeat constructor | simpl; lia].
    + destruct err as [e| |]; simpl.
      * eexists. split_and!; [done | by repeat constructor | simpl; lia].
      * exists []. split_and!; [by rewrite app_nil_r | constructor | simpl; lia].
      * eexists. split_and!; [done | by repeat constructor | simpl; lia].
Qed.

(** The failing input of C2: a check function whose promise is rejected
    without a reason. The handler sends nothing. *)
Lemma route_handler_responses_witness :
  route_handler (sample_world timeout_net [] [0] [2; 0; 1])
    (InspectionSetObj reasonless_set) (RequestObj "/health") no_effects
  = no_effects.
Proof.
  destruct (route_handler_responses (sample_world timeout_net [] [0] [2; 0; 1])
              reasonless_set (RequestObj "/health") no_effects sample_join_order)
    as (_ & _ & _ & Hrejected & _).
  destruct Hrejected as (r & Hr & _ & Hsent).
  - exists Nullish. right. vm_compute. reflexivity.
  - destruct Hr as [Hr|Hr]; [discriminate Hr|].
    vm_compute in Hr. injection Hr as <-. exact Hsent.
Defined.

(** End-to-end scenario: the endpoint answers 200. *)
Example scenario_endpoint_up :
  exists info,
    sent (route_handler (sample_world (answering_net 200) [0] [] [2; 0; 1])
            (InspectionSetObj sample_set) (RequestObj "/health") no_effects)
    = [ {| code := 200; body := ReportBody info |} ]
    /\ status info = 200%Z
    /\ data info !! "apis"
       = Some (FCategory (Report
           {| CategoryReport.status := Some true;
              CategoryReport.services :=
                [ {| CheckResult.name := "svc-a"; CheckResult.active := Some true |} ] |}))
    /\ data info !! "functions"
       = Some (FCategory (Report
           {| CategoryReport.status := Some true; CategoryReport.services := [] |})).
Proof. eexists. split_and!; by vm_compute. Qed.

(** The endpoint answers 500: the check fails, the response is still 200. *)
Example scenario_endpoint_down :
  exists info,
    sent (route_handler (sample_world (answering_net 500) [0] [] [2; 0; 1])
            (InspectionSetObj sample_set) (RequestObj "/health") no_effects)
    = [ {| code := 200; body := ReportBody info |} ]
    /\ data info !! "apis"
       = Some (FCategory (Report
           {| CategoryReport.status := Some false;
              CategoryReport.services :=
                [ {| CheckResult.name := "svc-a"; CheckResult.active := Some false |} ] |})).
Proof. eexists. split_and!; by vm_compute. Qed.

(** The handler built without an InspectionSet: [orchestrate] throws, the
    response is the degraded one. *)
Example scenario_no_inspection_set :
  sent (route_handler (sample_world (answering_net 200) [] [] [2; 0; 1])
          Undefined (RequestObj "/health") no_effects)
  = [ {| code := 200;
         body := MessageBody 200 "Cannot read property 'apis' of undefined" |} ].
Proof. reflexivity. Qed.

(** C3 on the code: in the scenario of one endpoint and no function, when
    the request fails (a time-out is such an error) the endpoint prober is
    rejected and the handler answers 200 with the degraded body, which has no
    [apis] report. *)
Theorem timeout_scenario_degraded (w : World) (error : js_error)
    (req : js_value) (fx : Effects) :
  net w "http://x/health" = RequestError error ->
  0 ∈ apis_order w ->
  join_order w ≡ₚ seq 0 3 ->
  executeApis (net w) (apis_order w) (apis sample_set) = Rejected error
  /\ sent (route_handler w (InspectionSetObj sample_set) req fx)
     = sent fx ++ [ {| code := 200; body := MessageBody 200 (message error) |} ].
Proof.
  intros Hnet Hin Hjoin.
  assert (executeApis (net w) (apis_order w) (apis sample_set) = Rejected error)
    as Hapis.
  { unfold executeApis. simpl.
    rewrite (Promise_map_single_rejected _ _ _ error); [done | done |].
    simpl. unfold ensureHttp200. by rewrite Hnet. }
  split; [done|].
  destruct (orchestrate_rejected w sample_set error Hjoin (or_introl Hapis))
    as (e' & Ho & [Ha|Hf]).
  - rewrite Hapis in Ha. injection Ha as <-.
    unfold route_handler. rewrite Ho. by destruct (raven w).
  - pose proof (executeFunctions_empty (functions_order w)) as Hempty.
    change (Some []) with (functions sample_set) in Hempty. congruence.
Qed.

Lemma timeout_scenario_degraded_witness :
  executeApis timeout_net [0] (apis sample_set) = Rejected (Error "ETIMEDOUT")
  /\ sent (route_handler (sample_world timeout_net [0] [] [2; 0; 1])
             (InspectionSetObj sample_set) (RequestObj "/health") no_effects)
     = [ {| code := 200; body := MessageBody 200 "ETIMEDOUT" |} ].
Proof.
  apply (timeout_scenario_degraded (sample_world timeout_net [0] [] [2; 0; 1])
           (Error "ETIMEDOUT") (RequestObj "/health") no_effects eq_refl).
  - apply list_elem_of_In. simpl. auto.
  - exact sample_join_order.
Defined.

(** ** Route registration *)

(** C10: [setupEndpoints] registers [getHealthCheck] itself, which is not a
    handler built from an InspectionSet. Called with [(req, res, next)] it
    returns a handler closed over the request and sends nothing; so a
    request for a route that only [setupEndpoints] registered leaves the
    responses as they were. *)
Theorem setupEndpoints_registers_factory (server : Server) (routeURI : string) :
  routes (setupEndpoints server routeURI)
  = routes server ++ [ (routeURI, GetHealthCheck) ]
  /\ (forall inspectionSet, GetHealthCheck <> getRouteHandler inspectionSet)
  /\ (forall w req fx,
        call_function w GetHealthCheck req fx = (Some (getHealthCheck req), fx))
  /\ (Forall (fun r => r.1 <> routeURI) (routes server) ->
      forall w fx,
        dispatch w (setupEndpoints server routeURI) routeURI fx = Some fx).
Proof.
  split_and!; try done.
  intros Hfresh w fx. unfold dispatch, setupEndpoints, server_get. simpl.
  rewrite list_find_app_r by (by apply list_find_None).
  simpl. by rewrite decide_True.
Qed.

Lemma setupEndpoints_registers_factory_witness :
  dispatch (sample_world (answering_net 200) [0] [] [2; 0; 1])
    (setupEndpoints {| routes := [] |} "/health") "/health" no_effects
  = Some no_effects.
Proof.
  destruct (setupEndpoints_registers_factory {| routes := [] |} "/health")
    as (_ & _ & _ & Hdispatch).
  apply Hdispatch. constructor.
Defined.

(** * Further properties of the probers, the collector and the handler *)

(** ** Fan-in, continued *)

(** An aggregate that resolves has seen every sibling resolve. *)
Lemma settle_all_resolved_inv {St A} (on_fulfil : nat -> A -> St -> St)
    (outs : list (promise A)) sched st done st' :
  settle_all on_fulfil outs sched st done = Resolved st' ->
  forall i, i < length outs ->
    i ∈ done \/ exists v, outs !! i = Some (Resolved v).
Proof.
  revert st done.
  induction sched as [|j rest IH]; intros st done; simpl.
  - case_bool_decide as Hsub; [|done]. intros _ i Hi. left.
    apply Hsub, elem_of_set_seq. lia.
  - destruct (outs !! j) as [[|v|e]|] eqn:Hj; intros Hres i Hi; [| |done|].
    + by apply (IH _ _ Hres).
    + destruct (IH _ _ Hres i Hi) as [Hin|?]; [|by right].
      apply elem_of_union in Hin as [Hin|?]; [|by left].
      apply elem_of_singleton in Hin as ->. right. by exists v.
    + by apply (IH _ _ Hres).
Qed.

(** Without a rejection, a sibling that never settles keeps the aggregate
    pending, whatever the schedule. *)
Lemma settle_all_pending {St A} (on_fulfil : nat -> A -> St -> St)
    (outs : list (promise A)) sched st done i :
  (forall j e, outs !! j <> Some (Rejected e)) ->
  outs !! i = Some Pending -> i ∉ done ->
  settle_all on_fulfil outs sched st done = Pending.
Proof.
  intros Hnorej Hi. revert st done.
  induction sched as [|j rest IH]; intros st done Hdone; simpl.
  - rewrite bool_decide_false; [done|]. intros Hsub. apply Hdone, Hsub.
    apply elem_of_set_seq. apply lookup_lt_Some in Hi. lia.
  - destruct (outs !! j) as [[|v|e]|] eqn:Hj.
    + by apply IH.
    + apply IH. assert (i <> j) by congruence. set_solver.
    + by destruct (Hnorej j e).
    + by apply IH.
Qed.

Lemma settle_all_store_length {B} (outs : list (promise B)) sched
    (values values' : list (option B)) done :
  settle_all store outs sched values done = Resolved values' ->
  length values' = length values.
Proof.
  revert values done.
  induction sched as [|j rest IH]; intros values done; simpl.
  - case_bool_decide; [|done]. by intros [= ->].
  - destruct (outs !! j) as [[|v|e]|]; intros Hres; [| |done|].
    + by apply (IH _ _ Hres).
    + rewrite (IH _ _ Hres). apply length_insert.
    + by apply (IH _ _ Hres).
Qed.

(** ** [Promise.map], continued *)

Lemma Promise_map_resolved_length {A B} (items : list A)
    (mapper : A -> completion (thenable B)) sched values :
  Promise_map sched items mapper = Resolved values ->
  length values = length items.
Proof.
  unfold Promise_map. intros Hres.
  rewrite (settle_all_store_length _ _ _ _ _ Hres). apply length_replicate.
Qed.

Lemma Promise_map_rejected_inv {A B} (items : list A)
    (mapper : A -> completion (thenable B)) sched e :
  Promise_map sched items mapper = Rejected e ->
  exists item, item ∈ items /\ assimilate (mapper item) = Rejected e.
Proof.
  unfold Promise_map. intros Hrej.
  apply settle_all_rejected_inv in Hrej as (i & _ & Hi).
  change (map ?f items) with (f <$> items) in Hi.
  rewrite list_lookup_fmap in Hi.
  destruct (items !! i) as [item|] eqn:Hitem; [|done].
  exists item. split; [by eapply list_elem_of_lookup_2 | by injection Hi].
Qed.

Lemma Promise_map_pending {A B} (items : list A)
    (mapper : A -> completion (thenable B)) sched item :
  (forall item' e, item' ∈ items -> assimilate (mapper item') <> Rejected e) ->
  item ∈ items -> assimilate (mapper item) = Pending ->
  Promise_map sched items mapper = Pending.
Proof.
  intros Hnorej Hin Hpend. unfold Promise_map.
  apply list_elem_of_lookup in Hin as [i Hi].
  apply (settle_all_pending _ _ _ _ _ i); [| |set_solver].
  - intros j e. change (map ?f items) with (f <$> items).
    rewrite list_lookup_fmap. destruct (items !! j) as [item'|] eqn:Hj; [|done].
    simpl. intros [= Hrej]. eapply Hnorej; [|done].
    by eapply list_elem_of_lookup_2.
  - change (map ?f items) with (f <$> items).
    by rewrite list_lookup_fmap, Hi; simpl; rewrite Hpend.
Qed.

(** ** Result reducer, continued *)

Lemma allOk_step_true_iff (n flag : jsflag) :
  js_and n flag = Some true <-> n = Some true /\ flag = Some true.
Proof. destruct n as [[|]|]; simpl; naive_solver. Qed.

Lemma allOk_from_true_iff (flags : list jsflag) (flag : jsflag) :
  foldl (fun flag n => js_and n flag) flag flags = Some true
  <-> flag = Some true /\ Forall (fun n => n = Some true) flags.
Proof.
  revert flag. induction flags as [|n flags IH]; intros flag; simpl.
  - split; [by intros -> | by intros [-> _]].
  - rewrite IH, allOk_step_true_iff, Forall_cons. naive_solver.
Qed.

Lemma allOk_from_all_true (flags : list jsflag) (flag : jsflag) :
  Forall (fun n => n = Some true) flags ->
  foldl (fun flag n => js_and n flag) flag flags = flag.
Proof.
  intros Hall. revert flag.
  induction Hall as [|n flags -> _ IH]; intros flag; simpl; [done | apply IH].
Qed.

(** X1: over every list of flags, booleans or [undefined], [allOk] is
    [true] exactly when every flag is [true]; otherwise it is the last flag
    that is not [true]. *)
Theorem allOk_true_iff_all_true (flags : list jsflag) :
  (allOk flags = Some true <-> Forall (fun n => n = Some true) flags)
  /\ (forall before n after,
        flags = before ++ n :: after -> n <> Some true ->
        Forall (fun n => n = Some true) after ->
        allOk flags = n).
Proof.
  split.
  - unfold allOk. rewrite allOk_from_true_iff. naive_solver.
  - intros before n after -> Hn Hafter. unfold allOk.
    rewrite foldl_app. simpl. rewrite allOk_from_all_true by done.
    destruct n as [[|]|]; done.
Qed.

Lemma allOk_true_iff_all_true_witness :
  allOk [Some true; None; Some false; Some true] = Some false
  /\ allOk [Some false; None] = None.
Proof.
  split.
  - apply (proj2 (allOk_true_iff_all_true _) [Some true; None] (Some false)
             [Some true] eq_refl); [discriminate | repeat constructor].
  - apply (proj2 (allOk_true_iff_all_true _) [Some false] None [] eq_refl);
      [discriminate | constructor].
Defined.

(** The rows pushed for specs and flags of the same length. *)
Lemma statusReply_each_aligned {A} `{Named A} (specs : list A)
    (flags : list jsflag) (services : list CheckResult.t) :
  length specs = length flags ->
  statusReply_each (lodash_zip specs flags) services
  = Returned (services ++
      zip_with (fun spec code => {| CheckResult.name := name_of spec;
                                    CheckResult.active := code |}) specs flags).
Proof.
  revert flags services.
  induction specs as [|spec specs IH]; intros [|code flags] services Hlen;
    try discriminate; simpl.
  - by rewrite app_nil_r.
  - rewrite IH by (simpl in Hlen; lia). by rewrite <- app_assoc.
Qed.

Lemma statusReply_aligned {A} `{Named A} (specs : list A) (flags : list jsflag) :
  length specs = length flags ->
  statusReply specs flags
  = Returned
      {| CategoryReport.status := allOk flags;
         CategoryReport.services :=
           zip_with (fun spec code => {| CheckResult.name := name_of spec;
                                         CheckResult.active := code |}) specs flags |}.
Proof. intros Hlen. unfold statusReply. by rewrite statusReply_each_aligned. Qed.

(** Specs without flags: every row is padded with [undefined]. *)
Lemma statusReply_each_padded {A} `{Named A} (specs : list A)
    (services : list CheckResult.t) :
  statusReply_each (map (fun spec => (Some spec, None)) specs) services
  = Returned (services ++
      ((fun spec => {| CheckResult.name := name_of spec;
                       CheckResult.active := None |}) <$> specs)).
Proof.
  revert services. induction specs as [|spec specs IH]; intros services; csimpl.
  - by rewrite app_nil_r.
  - rewrite IH. by rewrite <- app_assoc.
Qed.

Lemma statusReply_each_short {A} `{Named A} (specs : list A)
    (flags : list jsflag) (services : list CheckResult.t) :
  length flags <= length specs ->
  statusReply_each (lodash_zip specs flags) services
  = Returned (services ++
      imap (fun i spec => {| CheckResult.name := name_of spec;
                             CheckResult.active := mjoin (flags !! i) |}) specs).
Proof.
  revert flags services.
  induction specs as [|spec specs IH]; intros [|code flags] services Hlen;
    simpl in Hlen; try lia.
  - simpl. by rewrite app_nil_r.
  - change (lodash_zip (spec :: specs) [])
      with (map (fun spec : A => (Some spec, @None jsflag)) (spec :: specs)).
    rewrite statusReply_each_padded. do 2 f_equal.
    rewrite <- (imap_const _ (spec :: specs)). by apply imap_ext.
  - simpl. rewrite IH by lia. by rewrite <- app_assoc.
Qed.

Lemma statusReply_each_long {A} `{Named A} (specs : list A)
    (flags : list jsflag) (services : list CheckResult.t) :
  length specs < length flags ->
  statusReply_each (lodash_zip specs flags) services
  = Threw (Error "Cannot read property 'name' of undefined").
Proof.
  revert flags services.
  induction specs as [|spec specs IH]; intros [|code flags] services Hlen;
    simpl in Hlen; try lia.
  - done.
  - simpl. apply IH. lia.
Qed.

(** X2: [statusReply] on lists of different lengths. With fewer flags than
    specs it still returns one row per spec, in order, the rows without a
    flag having [active] undefined; with more flags than specs it throws. *)
Theorem statusReply_length_mismatch {A} `{Named A} (specs : list A)
    (flags : list jsflag) :
  (length flags <= length specs ->
   exists r, statusReply specs flags = Returned r
     /\ CategoryReport.status r = allOk flags
     /\ length (CategoryReport.services r) = length specs
     /\ forall i spec, specs !! i = Some spec ->
          CategoryReport.services r !! i
          = Some {| CheckResult.name := name_of spec;
                    CheckResult.active := mjoin (flags !! i) |})
  /\ (length specs < length flags ->
      statusReply specs flags
      = Threw (Error "Cannot read property 'name' of undefined")).
Proof.
  split; intros Hlen; unfold statusReply.
  - rewrite statusReply_each_short by done. eexists. split; [done|]. simpl.
    split_and!; [done | by rewrite length_imap |].
    intros i spec Hi. by rewrite list_lookup_imap, Hi.
  - by rewrite statusReply_each_long.
Qed.

Lemma statusReply_length_mismatch_witness :
  (exists r, statusReply two_apis [Some true] = Returned r
     /\ CategoryReport.services r !! 1
        = Some {| CheckResult.name := "svc-b"; CheckResult.active := None |})
  /\ statusReply two_apis [Some true; Some true; Some false]
     = Threw (Error "Cannot read property 'name' of undefined").
Proof.
  destruct (statusReply_length_mismatch two_apis [Some true]) as [Hshort _].
  destruct (statusReply_length_mismatch two_apis [Some true; Some true; Some false])
    as [_ Hlong].
  split.
  - destruct Hshort as (r & Hr & _ & _ & Hrows); [simpl; lia|].
    exists r. split; [exact Hr|]. exact (Hrows 1 _ eq_refl).
  - apply Hlong. simpl. lia.
Defined.

(** ** Probers, continued *)

Section pipeline.
Context {A : Type} `{Named A}.
Implicit Types (items : list A) (mapper : A -> completion (thenable bool)).

(** A prober is rejected only with the reason of one of its probes: the
    reducer does not throw on what [Promise.map] resolves to. *)
Lemma prober_rejected_inv items mapper sched e :
  promise_then (Promise_map sched items mapper) (then_statusReply items)
  = Rejected e ->
  exists item, item ∈ items /\ assimilate (mapper item) = Rejected e.
Proof.
  destruct (Promise_map sched items mapper) as [|flags|e'] eqn:Hmap; simpl.
  - done.
  - unfold then_statusReply.
    rewrite statusReply_aligned
      by (symmetry; by eapply Promise_map_resolved_length).
    done.
  - intros [= ->]. by eapply Promise_map_rejected_inv.
Qed.

(** A prober that resolves has seen every probe resolve. *)
Lemma prober_resolved_inv items mapper sched v :
  promise_then (Promise_map sched items mapper) (then_statusReply items)
  = Resolved v ->
  Forall (fun item => exists b, assimilate (mapper item) = Resolved b) items.
Proof.
  destruct (Promise_map sched items mapper) as [|flags|e'] eqn:Hmap;
    simpl; [done | | done].
  intros _. apply Forall_lookup. intros i item Hi.
  unfold Promise_map in Hmap.
  destruct (settle_all_resolved_inv _ _ _ _ _ _ Hmap i) as [Hin|[b Hb]].
  - rewrite length_map. by eapply lookup_lt_Some.
  - set_solver.
  - change (map ?f items) with (f <$> items) in Hb.
    rewrite list_lookup_fmap, Hi in Hb. exists b. by injection Hb.
Qed.

Lemma prober_pending items mapper sched item :
  (forall item' e, item' ∈ items -> assimilate (mapper item') <> Rejected e) ->
  item ∈ items -> assimilate (mapper item) = Pending ->
  promise_then (Promise_map sched items mapper) (then_statusReply items)
  = Pending.
Proof.
  intros Hnorej Hin Hpend.
  by rewrite (Promise_map_pending items mapper sched item).
Qed.
End pipeline.

Lemma and_reduce_true_iff (bs : list bool) :
  and_reduce bs = true <-> Forall (fun b => b = true) bs.
Proof.
  induction bs as [|b bs IH]; simpl.
  - split; [constructor | done].
  - rewrite andb_true_iff, IH, Forall_cons. naive_solver.
Qed.

(** The report of the endpoint prober when every request is answered. *)
Lemma executeApis_answered (net : string -> request_result) (sched : list nat)
    (specs : list ApiSpec.t) (codes : list Z) :
  Forall2 (fun api c => net (ApiSpec.url api) = RequestResponse c) specs codes ->
  sched ≡ₚ seq 0 (length specs) ->
  executeApis net sched (Some specs)
  = Resolved (Report
      {| CategoryReport.status :=
           Some (and_reduce ((fun c => Z.eqb c 200) <$> codes));
         CategoryReport.services :=
           zip_with (fun api b => {| CheckResult.name := name_of api;
                                     CheckResult.active := Some b |})
             specs ((fun c => Z.eqb c 200) <$> codes) |}).
Proof.
  intros Hnet Hperm. unfold executeApis.
  rewrite (Promise_map_resolved specs _ ((fun c => Z.eqb c 200) <$> codes) sched Hperm).
  - simpl. unfold then_statusReply. rewrite statusReply_paired; [done|].
    rewrite length_fmap. by eapply Forall2_length.
  - apply Forall2_fmap_r. eapply Forall2_impl; [exact Hnet|].
    intros api c Hc. simpl. unfold ensureHttp200. by rewrite Hc.
Qed.

(** X3: when every request is answered, whatever the status codes and the
    order of the answers, the endpoint prober resolves to a report with one
    row per endpoint, in order, whose [active] says whether the status code
    was 200, and whose [status] is [true] exactly when every code was 200. *)
Theorem executeApis_all_answered (net : string -> request_result)
    (sched : list nat) (specs : list ApiSpec.t) (codes : list Z) :
  Forall2 (fun api c => net (ApiSpec.url api) = RequestResponse c) specs codes ->
  sched ≡ₚ seq 0 (length specs) ->
  exists r, executeApis net sched (Some specs) = Resolved (Report r)
    /\ length (CategoryReport.services r) = length specs
    /\ (forall i api c, specs !! i = Some api -> codes !! i = Some c ->
          CategoryReport.services r !! i
          = Some {| CheckResult.name := ApiSpec.name api;
                    CheckResult.active := Some (Z.eqb c 200) |})
    /\ (CategoryReport.status r = Some true
        <-> Forall (fun c => c = 200%Z) codes)
    /\ (CategoryReport.status r = Some false
        <-> Exists (fun c => c <> 200%Z) codes).
Proof.
  intros Hnet Hperm. eexists. split; [by apply executeApis_answered|]. simpl.
  pose proof (Forall2_length _ _ _ Hnet) as Hlen.
  assert (and_reduce ((fun c => Z.eqb c 200) <$> codes) = true
          <-> Forall (fun c => c = 200%Z) codes) as Hall.
  { rewrite and_reduce_true_iff, Forall_fmap. apply Forall_proper; [|done].
    intros c. simpl. apply Z.eqb_eq. }
  split_and!.
  - rewrite length_zip_with, length_fmap. lia.
  - intros i api c Hi Hc.
    by rewrite lookup_zip_with, Hi, list_lookup_fmap, Hc.
  - rewrite <- Hall. split; congruence.
  - split.
    + intros Hs. apply (not_Forall_Exists (fun c => c = 200%Z)).
      intros Hcodes. apply Hall in Hcodes. congruence.
    + intros Hcodes. destruct (and_reduce _) eqn:Hred; [|done].
      destruct (Exists_not_Forall (fun c => c = 200%Z) codes Hcodes).
      by apply Hall.
Qed.

Lemma executeApis_all_answered_witness :
  exists r, executeApis degraded_net [1; 0] (Some two_apis) = Resolved (Report r)
    /\ CategoryReport.services r !! 1
       = Some {| CheckResult.name := "svc-b"; CheckResult.active := Some false |}
    /\ CategoryReport.status r = Some false.
Proof.
  destruct (executeApis_all_answered degraded_net [1; 0] two_apis [200; 503]%Z)
    as (r & Hr & _ & Hrows & _ & Hfalse).
  - repeat constructor.
  - exact (perm_swap 0 1 []).
  - exists r. split; [exact Hr|]. split.
    + exact (Hrows 1 _ 503%Z eq_refl eq_refl).
    + apply Hfalse. right. left. discriminate.
Defined.

(** X4: the endpoint prober is rejected exactly when some request ends in
    a transport error, and then with the error of one of the failing
    requests; the status codes of the other endpoints are lost. *)
Theorem executeApis_rejected_iff_transport_error
    (net : string -> request_result) (sched : list nat)
    (specs : list ApiSpec.t) :
  sched ≡ₚ seq 0 (length specs) ->
  (forall r, executeApis net sched (Some specs) = Rejected r ->
     exists api e, api ∈ specs /\ net (ApiSpec.url api) = RequestError e
       /\ r = ErrorObject e)
  /\ ((exists api e, api ∈ specs /\ net (ApiSpec.url api) = RequestError e) ->
      exists r, executeApis net sched (Some specs) = Rejected r).
Proof.
  intros Hperm. split.
  - intros r Hrej. apply prober_rejected_inv in Hrej as (api & Hin & Hapi).
    simpl in Hapi. unfold ensureHttp200 in Hapi.
    destruct (net (ApiSpec.url api)) as [e|c] eqn:Hnet; simpl in Hapi;
      [|discriminate].
    exists api, e. split_and!; [done | done | by injection Hapi].
  - intros (api & e & Hin & Hapi).
    apply list_elem_of_lookup in Hin as [i Hi].
    destruct (Promise_map_rejects specs
                (fun api => Returned (Promised (ensureHttp200 net (ApiSpec.url api))))
                sched i api e Hperm Hi) as (j & api' & e' & _ & _ & Hmap).
    { simpl. unfold ensureHttp200. by rewrite Hapi. }
    exists e'. unfold executeApis. by rewrite Hmap.
Qed.

Lemma executeApis_rejected_iff_transport_error_witness :
  exists r, executeApis refusing_net [1; 0] (Some two_apis) = Rejected r.
Proof.
  apply (executeApis_rejected_iff_transport_error refusing_net [1; 0] two_apis
           (perm_swap 0 1 [])).
  exists {| ApiSpec.name := "svc-b"; ApiSpec.url := "http://b/health" |},
         (Error "ECONNREFUSED").
  split; [|reflexivity]. apply list_elem_of_In. simpl. auto.
Defined.

(** X5: what the function prober settles to tells what the functions did,
    for every completion order: a rejection carries the value thrown by a
    function, or the reason with which its promise was rejected; and a
    report means that no function threw, was rejected or is still
    pending. *)
Theorem executeFunctions_settled_inv (sched : list nat) (fns : list FnSpec.t) :
  (forall r, executeFunctions sched (Some fns) = Rejected r ->
     exists spec, spec ∈ fns
       /\ (FnSpec.fn spec = Threw r
           \/ FnSpec.fn spec = Returned (Promised (Rejected r))))
  /\ (forall v, executeFunctions sched (Some fns) = Resolved v ->
        Forall (fun spec =>
                  (forall r, FnSpec.fn spec <> Threw r)
                  /\ (forall r, FnSpec.fn spec <> Returned (Promised (Rejected r)))
                  /\ FnSpec.fn spec <> Returned (Promised Pending)) fns).
Proof.
  split.
  - intros r Hrej. apply prober_rejected_inv in Hrej as (spec & Hin & Hspec).
    exists spec. split; [done|].
    destruct (FnSpec.fn spec) as [[b|[|b|r']]|r']; simpl in Hspec;
      try discriminate; injection Hspec as ->; auto.
  - intros v Hres. apply prober_resolved_inv in Hres.
    eapply Forall_impl; [exact Hres|]. intros spec [b Hb].
    destruct (FnSpec.fn spec) as [[b'|[|b'|r']]|r']; simpl in Hb;
      try discriminate; split_and!; intros; discriminate.
Qed.

(** X6: a category that is present but empty reports [status] [true] and no
    service, for every schedule, whereas an absent category resolves to the
    empty array. *)
Theorem empty_category_is_not_absent (net : string -> request_result)
    (sched : list nat) :
  executeApis net sched (Some [])
  = Resolved (Report {| CategoryReport.status := Some true;
                        CategoryReport.services := [] |})
  /\ executeFunctions sched (Some [])
     = Resolved (Report {| CategoryReport.status := Some true;
                           CategoryReport.services := [] |})
  /\ executeApis net sched None = Resolved EmptyArray
  /\ executeFunctions sched None = Resolved EmptyArray
  /\ category_status
       (Report {| CategoryReport.status := Some true;
                  CategoryReport.services := [] |})
     <> category_status EmptyArray.
Proof.
  split_and!; try done.
  - unfold executeApis, Promise_map. simpl. by rewrite settle_all_nil.
  - unfold executeFunctions, Promise_map. simpl. by rewrite settle_all_nil.
Qed.

Lemma executeFunctions_settled_inv_witness :
  exists spec, spec ∈ failing_fns
    /\ (FnSpec.fn spec = Threw (Error "boom")
        \/ FnSpec.fn spec = Returned (Promised (Rejected (Error "boom")))).
Proof.
  apply (proj1 (executeFunctions_settled_inv [1; 0] failing_fns)).
  vm_compute. reflexivity.
Defined.

(** ** Host metrics collector, continued *)

(** X7: [getCpuPercent] is the load per CPU as a percentage, computed and
    rounded to two decimals in double arithmetic; when [os.cpus()] is empty
    it is an infinity with the sign of the load for a load that is not
    zero, and [NaN] for a zero load and for [NaN]. *)
Theorem getCpuPercent_cases (h : Host) (load : jsnum) :
  double_rounded_2dp (percent_of load (num (Z.of_nat (cpus h))))
    (getCpuPercent h load)
  /\ (cpus h = 0 ->
      getCpuPercent h load
      = match load with
        | S754_finite s _ _ | S754_infinity s => S754_infinity s
        | _ => S754_nan
        end).
Proof.
  split.
  - apply (double_rounded_2dp_round (percent_of load (num (Z.of_nat (cpus h))))).
  - intros Hcpu. unfold getCpuPercent. rewrite Hcpu.
    destruct load as [s|s| |s m e]; try destruct s; reflexivity.
Qed.

Lemma getCpuPercent_cases_witness :
  getCpuPercent cpuless_host (double 1 (-1)) = S754_infinity false.
Proof.
  apply (proj2 (getCpuPercent_cases cpuless_host (double 1 (-1)))). reflexivity.
Defined.

(** X8: while the disk query is pending so is the collector; when the
    query succeeds the record holds the seven properties, with
    [disk_root_use_percent] the used share of the volume as a percentage and
    [os_free_memory_mb] the free memory in mebibytes, both computed and
    rounded to two decimals in double arithmetic. A volume of size zero
    gives [NaN] or an infinity, not the -1 of a failed query. *)
Theorem healthCheckServer_disk_success (h : Host) (data : DiskData) :
  healthCheckServer h Pending = Pending
  /\ exists m pct free,
       healthCheckServer h (Resolved data) = Resolved m
       /\ dom m = {[ "process_memory_used_percent"; "uptime_minutes";
                     "cpu_one_minute_average_percent";
                     "cpu_five_minute_average_percent"; "hostname";
                     "os_free_memory_mb"; "disk_root_use_percent" ]}
       /\ m !! "hostname" = Some (MStr (hostname h))
       /\ m !! "os_free_memory_mb" = Some (MNum free)
       /\ double_rounded_2dp (jsdiv (freemem h) (num (1024 * 1024))) free
       /\ m !! "disk_root_use_percent" = Some (MNum pct)
       /\ double_rounded_2dp (percent_of (used data) (total data)) pct
       /\ (forall s, total data = S754_zero s ->
           pct = match used data with
                 | S754_finite su _ _ | S754_infinity su =>
                     S754_infinity (xorb su s)
                 | _ => S754_nan
                 end).
Proof.
  split; [done|]. do 3 eexists. split; [reflexivity|]. split_and!.
  - unfold healthCheckServer_sync.
    rewrite !dom_insert_L, dom_empty_L. set_solver.
  - rewrite lookup_insert_ne by done. unfold healthCheckServer_sync.
    rewrite !lookup_insert_ne by done. by rewrite lookup_insert_eq.
  - rewrite lookup_insert_ne by done. unfold healthCheckServer_sync.
    rewrite lookup_insert_eq. reflexivity.
  - apply double_rounded_2dp_round.
  - by rewrite lookup_insert_eq.
  - apply (double_rounded_2dp_round (percent_of (used data) (total data))).
  - intros s Htotal. rewrite Htotal.
    destruct (used data) as [su|su| |su m e]; destruct s; try destruct su;
      reflexivity.
Qed.

Lemma healthCheckServer_disk_success_witness :
  exists m,
    healthCheckServer sample_host
      (Resolved {| used := num 5; total := S754_zero false |}) = Resolved m
    /\ m !! "disk_root_use_percent" = Some (MNum (S754_infinity false)).
Proof.
  destruct (healthCheckServer_disk_success sample_host
              {| used := num 5; total := S754_zero false |})
    as (_ & m & pct & free & Hm & _ & _ & _ & _ & Hpct & _ & Hzero).
  exists m. split; [exact Hm|]. rewrite Hpct.
  rewrite (Hzero false eq_refl). reflexivity.
Defined.

(** ** Orchestrator, continued *)

Lemma then_assign_resolved_inv {A} (p : promise A) key (field : A -> report_field) f :
  then_assign p key field = Resolved f -> exists v, p = Resolved v.
Proof. destruct p as [|v|e]; simpl; [done | by exists v | done]. Qed.

Lemma then_assign_pending_iff {A} (p : promise A) key (field : A -> report_field) :
  then_assign p key field = Pending <-> p = Pending.
Proof. destruct p; simpl; split; congruence. Qed.

(** The promise that [orchestrate] returns for an InspectionSet. *)
Lemma orchestrate_returns (w : World) (s : InspectionSet) :
  orchestrate w (InspectionSetObj s)
  = Returned
      (promise_then
         (Promise_join (join_order w)
            [ then_assign (executeApis (net w) (apis_order w) (apis s))
                "apis" FCategory;
              then_assign (executeFunctions (functions_order w) (functions s))
                "functions" FCategory;
              then_assign (healthCheckServer (host w) (disk w)) "server" FServer ]
            ∅)
         (fun result => Returned (Plain {| status := 200; data := result |}))).
Proof. reflexivity. Qed.

(** A rejection of [orchestrate] is a rejection of one of the probers. *)
Lemma orchestrate_rejected_inv (w : World) (s : InspectionSet) e :
  orchestrate w (InspectionSetObj s) = Returned (Rejected e) ->
  executeApis (net w) (apis_order w) (apis s) = Rejected e
  \/ executeFunctions (functions_order w) (functions s) = Rejected e.
Proof.
  rewrite orchestrate_returns. intros [= Hp]. revert Hp.
  match goal with |- context [Promise_join ?o ?ps ?r] =>
    destruct (Promise_join o ps r) as [|result|e'] eqn:Hjoin end;
    simpl; [done | done |].
  intros [= ->]. unfold Promise_join in Hjoin.
  apply settle_all_rejected_inv in Hjoin as (i & _ & Hi).
  destruct i as [|[|[|i]]]; simpl in Hi; try discriminate; injection Hi as Hi;
    apply then_assign_rejected_iff in Hi; auto.
  by apply healthCheckServer_not_rejected in Hi.
Qed.

(** [orchestrate] resolves only once its three branches have resolved. *)
Lemma orchestrate_resolved_inv (w : World) (s : InspectionSet) info :
  orchestrate w (InspectionSetObj s) = Returned (Resolved info) ->
  exists av fv m,
    executeApis (net w) (apis_order w) (apis s) = Resolved av
    /\ executeFunctions (functions_order w) (functions s) = Resolved fv
    /\ healthCheckServer (host w) (disk w) = Resolved m.
Proof.
  rewrite orchestrate_returns. intros [= Hp]. revert Hp.
  match goal with |- context [Promise_join ?o ?ps ?r] =>
    destruct (Promise_join o ps r) as [|result|e'] eqn:Hjoin end;
    simpl; [done | | done].
  intros _. unfold Promise_join in Hjoin.
  pose proof (settle_all_resolved_inv _ _ _ _ _ _ Hjoin) as Hall.
  destruct (Hall 0) as [?|[f0 H0]]; [simpl; lia | set_solver |].
  destruct (Hall 1) as [?|[f1 H1]]; [simpl; lia | set_solver |].
  destruct (Hall 2) as [?|[f2 H2]]; [simpl; lia | set_solver |].
  simpl in H0, H1, H2.
  injection H0 as H0. injection H1 as H1. injection H2 as H2.
  apply then_assign_resolved_inv in H0 as [av Hav].
  apply then_assign_resolved_inv in H1 as [fv Hfv].
  apply then_assign_resolved_inv in H2 as [m Hm].
  by exists av, fv, m.
Qed.

(** Without a rejection, a branch that never settles keeps [orchestrate]
    pending. *)
Lemma orchestrate_pending (w : World) (s : InspectionSet) :
  (forall e, executeApis (net w) (apis_order w) (apis s) <> Rejected e) ->
  (forall e, executeFunctions (functions_order w) (functions s) <> Rejected e) ->
  executeApis (net w) (apis_order w) (apis s) = Pending
  \/ executeFunctions (functions_order w) (functions s) = Pending
  \/ disk w = Pending ->
  orchestrate w (InspectionSetObj s) = Returned Pending.
Proof.
  intros Ha Hf Hpend. rewrite orchestrate_returns. f_equal.
  unfold Promise_join.
  match goal with |- promise_then ?j _ = _ => assert (j = Pending) as -> end;
    [|done].
  assert (exists i, [ then_assign (executeApis (net w) (apis_order w) (apis s))
                        "apis" FCategory;
                      then_assign (executeFunctions (functions_order w) (functions s))
                        "functions" FCategory;
                      then_assign (healthCheckServer (host w) (disk w))
                        "server" FServer ] !! i = Some Pending) as [i Hi].
  { destruct Hpend as [Hp|[Hp|Hp]].
    - exists 0. simpl. f_equal. by apply then_assign_pending_iff.
    - exists 1. simpl. f_equal. by apply then_assign_pending_iff.
    - exists 2. simpl. f_equal. apply then_assign_pending_iff.
      by rewrite Hp. }
  apply (settle_all_pending _ _ _ _ _ i); [|done|set_solver].
  intros [|[|[|j]]] e; simpl; try done; intros [= Hj];
    apply then_assign_rejected_iff in Hj.
  - by apply Ha in Hj.
  - by apply Hf in Hj.
  - by apply healthCheckServer_not_rejected in Hj.
Qed.

(** X9: for every order in which the three branches settle, [orchestrate]
    on an InspectionSet does not throw; its promise resolves exactly when
    the two probers and the collector resolve, to status 200 and a report
    with exactly the keys [apis], [functions] and [server]; and it is
    rejected exactly when a prober is, with the error of a rejected prober. *)
Theorem orchestrate_outcomes (w : World) (s : InspectionSet) :
  join_order w ≡ₚ seq 0 3 ->
  exists p, orchestrate w (InspectionSetObj s) = Returned p
    /\ (forall info, p = Resolved info <->
          exists av fv m,
            executeApis (net w) (apis_order w) (apis s) = Resolved av
            /\ executeFunctions (functions_order w) (functions s) = Resolved fv
            /\ healthCheckServer (host w) (disk w) = Resolved m
            /\ info = {| status := 200;
                         data := <[ "server" := FServer m ]>
                                   (<[ "functions" := FCategory fv ]>
                                      (<[ "apis" := FCategory av ]> ∅)) |})
    /\ (forall info, p = Resolved info ->
          dom (data info) = {[ "apis"; "functions"; "server" ]})
    /\ (forall e, p = Rejected e ->
          executeApis (net w) (apis_order w) (apis s) = Rejected e
          \/ executeFunctions (functions_order w) (functions s) = Rejected e)
    /\ ((exists e, executeApis (net w) (apis_order w) (apis s) = Rejected e
                   \/ executeFunctions (functions_order w) (functions s)
                      = Rejected e) ->
        exists e, p = Rejected e).
Proof.
  intros Hperm. eexists. split; [apply orchestrate_returns|].
  match goal with |- context [promise_then ?j ?k] =>
    set (p := promise_then j k) end.
  assert (orchestrate w (InspectionSetObj s) = Returned p) as Ho
    by apply orchestrate_returns.
  assert (forall info, p = Resolved info ->
            exists av fv m,
              executeApis (net w) (apis_order w) (apis s) = Resolved av
              /\ executeFunctions (functions_order w) (functions s) = Resolved fv
              /\ healthCheckServer (host w) (disk w) = Resolved m
              /\ info = {| status := 200;
                           data := <[ "server" := FServer m ]>
                                     (<[ "functions" := FCategory fv ]>
                                        (<[ "apis" := FCategory av ]> ∅)) |})
    as Hinv.
  { intros info Hp. rewrite Hp in Ho.
    destruct (orchestrate_resolved_inv w s info Ho) as (av & fv & m & Ha & Hf & Hm).
    exists av, fv, m. split_and!; try done.
    rewrite (orchestrate_resolved w s av fv m Hperm Ha Hf Hm) in Ho.
    by injection Ho. }
  split_and!.
  - intros info. split; [apply Hinv|].
    intros (av & fv & m & Ha & Hf & Hm & ->).
    rewrite (orchestrate_resolved w s av fv m Hperm Ha Hf Hm) in Ho.
    by injection Ho.
  - intros info Hp.
    destruct (Hinv info Hp) as (av & fv & m & _ & _ & _ & ->).
    simpl. rewrite !dom_insert_L, dom_empty_L. set_solver.
  - intros e Hp. apply orchestrate_rejected_inv. by rewrite Ho, Hp.
  - intros [e He].
    destruct (orchestrate_rejected w s e Hperm He) as (e' & Ho' & _).
    exists e'. rewrite Ho in Ho'. by injection Ho'.
Qed.

Lemma orchestrate_outcomes_witness :
  exists e,
    orchestrate raven_world (InspectionSetObj two_apis_set) = Returned (Rejected e).
Proof.
  destruct (orchestrate_outcomes raven_world two_apis_set sample_join_order)
    as (p & Ho & _ & _ & _ & Hrej).
  destruct Hrej as [e He].
  - exists (Error "ECONNREFUSED"). left. vm_compute. reflexivity.
  - exists e. rewrite Ho, He. reflexivity.
Defined.

(** ** Route handler adapter, continued *)

Lemma app_singleton_neq {A} (l : list A) (x : A) : l <> l ++ [x].
Proof.
  intros Heq. apply (f_equal length) in Heq. rewrite length_app in Heq.
  simpl in Heq. lia.
Qed.

(** X10: what reaches [Raven.captureException]. A handler built without an
    InspectionSet answers with the degraded body and reports nothing, and
    nothing is reported when Raven is not set. A value is reported only
    when Raven is set and a prober was rejected with it, and then its
    [message] could be read and the degraded body carries it. With Raven
    set, a rejection of the orchestration is reported when the [message]
    of its reason can be read; when the reason is [undefined] or [null] the
    handler neither answers nor reports. *)
Theorem route_handler_raven (w : World) (s : InspectionSet) (req : js_value)
    (fx : Effects) :
  route_handler w Undefined req fx
  = {| sent := sent fx ++
         [ {| code := 200;
              body := MessageBody 200 "Cannot read property 'apis' of undefined" |} ];
       captured := captured fx |}
  /\ (raven w = false ->
      captured (route_handler w (InspectionSetObj s) req fx) = captured fx)
  /\ (forall r,
        captured (route_handler w (InspectionSetObj s) req fx)
        = captured fx ++ [r] ->
        raven w = true
        /\ (executeApis (net w) (apis_order w) (apis s) = Rejected r
            \/ executeFunctions (functions_order w) (functions s) = Rejected r)
        /\ exists message,
             reason_message r = Returned message
             /\ sent (route_handler w (InspectionSetObj s) req fx)
                = sent fx ++ [ {| code := 200;
                                  body := message_body 200 message |} ])
  /\ (raven w = true ->
      forall r, orchestrate w (InspectionSetObj s) = Returned (Rejected r) ->
        match reason_message r with
        | Returned _ =>
            captured (route_handler w (InspectionSetObj s) req fx)
            = captured fx ++ [r]
        | Threw _ => route_handler w (InspectionSetObj s) req fx = fx
        end).
Proof.
  split_and!.
  - done.
  - intros Hraven. unfold route_handler.
    destruct (orchestrate w (InspectionSetObj s)) as [[|info|err]|err];
      simpl; try done; destruct (reason_message err); try done.
    by rewrite Hraven.
  - intros r. unfold route_handler.
    destruct (orchestrate w (InspectionSetObj s)) as [[|info|err]|err] eqn:Ho;
      simpl; try (intros Hc; by apply app_singleton_neq in Hc).
    + destruct (reason_message err) as [message|] eqn:Hmsg;
        [|intros Hc; by apply app_singleton_neq in Hc].
      destruct (raven w); simpl; [|intros Hc; by apply app_singleton_neq in Hc].
      intros Hc. apply app_inv_head in Hc. injection Hc as ->.
      split_and!; [done | by apply orchestrate_rejected_inv |].
      by exists message.
    + destruct (reason_message err);
        intros Hc; by apply app_singleton_neq in Hc.
  - intros Hraven r Ho. unfold route_handler. rewrite Ho.
    destruct (reason_message r); [by rewrite Hraven | done].
Qed.

Lemma route_handler_raven_witness :
  captured (route_handler raven_world (InspectionSetObj two_apis_set)
              (RequestObj "/health") no_effects)
  = [ ErrorObject (Error "ECONNREFUSED") ].
Proof.
  destruct (route_handler_raven raven_world two_apis_set (RequestObj "/health")
              no_effects) as (_ & _ & _ & Hreported).
  apply (Hreported eq_refl (ErrorObject (Error "ECONNREFUSED"))).
  vm_compute. reflexivity.
Defined.

(** X11: there is no deadline. When a check function returns a promise that
    never settles and nothing is rejected, the function prober stays pending
    and the handler sends no response and reports nothing, whatever the
    completion orders. *)
Theorem pending_function_no_response (w : World) (s : InspectionSet)
    (fns : list FnSpec.t) (spec : FnSpec.t) (req : js_value) (fx : Effects) :
  functions s = Some fns ->
  spec ∈ fns ->
  FnSpec.fn spec = Returned (Promised Pending) ->
  (forall spec' e, spec' ∈ fns ->
     FnSpec.fn spec' <> Threw e
     /\ FnSpec.fn spec' <> Returned (Promised (Rejected e))) ->
  (forall e, executeApis (net w) (apis_order w) (apis s) <> Rejected e) ->
  executeFunctions (functions_order w) (functions s) = Pending
  /\ route_handler w (InspectionSetObj s) req fx = fx.
Proof.
  intros Hfns Hin Hspec Hnofail Hapis.
  assert (executeFunctions (functions_order w) (functions s) = Pending) as Hpend.
  { rewrite Hfns. unfold executeFunctions.
    apply (prober_pending fns _ _ spec); [|done|by rewrite Hspec].
    intros spec' e Hin' Hrej. destruct (Hnofail spec' e Hin') as [Hthrow Hreject].
    destruct (FnSpec.fn spec') as [[b|[|b|e']]|e']; simpl in Hrej;
      try discriminate; injection Hrej as ->; [by apply Hreject | by apply Hthrow]. }
  split; [done|].
  unfold route_handler. rewrite orchestrate_pending; [done | done | | auto].
  intros e. by rewrite Hpend.
Qed.

Lemma pending_function_no_response_witness :
  executeFunctions [0] (functions hanging_set) = Pending
  /\ route_handler (sample_world timeout_net [] [0] [2; 0; 1])
       (InspectionSetObj hanging_set) (RequestObj "/health") no_effects
     = no_effects.
Proof.
  apply (pending_function_no_response (sample_world timeout_net [] [0] [2; 0; 1])
           hanging_set hanging_fns
           {| FnSpec.name := "slow"; FnSpec.fn := Returned (Promised Pending) |}
           (RequestObj "/health") no_effects eq_refl).
  - apply list_elem_of_In. simpl. auto.
  - reflexivity.
  - intros spec' e Hin. apply list_elem_of_In in Hin. simpl in Hin.
    destruct Hin as [<-|[]]. split; discriminate.
  - intros e. discriminate.
Defined.

(** The report of the function prober when every function gives a boolean. *)
Lemma executeFunctions_answered (sched : list nat) (fns : list FnSpec.t)
    (outs : list bool) :
  Forall2 (fun spec b => FnSpec.fn spec = Returned (Plain b)
                         \/ FnSpec.fn spec = Returned (Promised (Resolved b)))
    fns outs ->
  sched ≡ₚ seq 0 (length fns) ->
  executeFunctions sched (Some fns)
  = Resolved (Report
      {| CategoryReport.status := Some (and_reduce outs);
         CategoryReport.services :=
           zip_with (fun spec b => {| CheckResult.name := name_of spec;
                                      CheckResult.active := Some b |}) fns outs |}).
Proof.
  intros Hfns Hperm. unfold executeFunctions.
  rewrite (Promise_map_resolved fns _ outs sched Hperm).
  - simpl. unfold then_statusReply. rewrite statusReply_paired; [done|].
    by eapply Forall2_length.
  - eapply Forall2_impl; [exact Hfns|]. by intros spec b [-> | ->].
Qed.

(** X12: the whole path. When every request is answered, every function
    gives a boolean and the disk query settles, then for all completion
    orders the handler sends exactly one response, with code 200, reports
    nothing to Raven, and the body holds status 200, the collector's record,
    and for each category one row per check, in order, with the overall flag
    of the category. Failed checks change the flags, not the response
    code. *)
Theorem route_handler_report (w : World) (specs : list ApiSpec.t)
    (codes : list Z) (fns : list FnSpec.t) (outs : list bool)
    (req : js_value) (fx : Effects) :
  Forall2 (fun api c => net w (ApiSpec.url api) = RequestResponse c) specs codes ->
  Forall2 (fun spec b => FnSpec.fn spec = Returned (Plain b)
                         \/ FnSpec.fn spec = Returned (Promised (Resolved b)))
    fns outs ->
  apis_order w ≡ₚ seq 0 (length specs) ->
  functions_order w ≡ₚ seq 0 (length fns) ->
  join_order w ≡ₚ seq 0 3 ->
  disk w <> Pending ->
  exists info m,
    route_handler w
      (InspectionSetObj {| apis := Some specs; functions := Some fns |}) req fx
    = {| sent := sent fx ++ [ {| code := 200; body := ReportBody info |} ];
         captured := captured fx |}
    /\ status info = 200%Z
    /\ healthCheckServer (host w) (disk w) = Resolved m
    /\ data info !! "server" = Some (FServer m)
    /\ data info !! "apis"
       = Some (FCategory (Report
           {| CategoryReport.status :=
                Some (and_reduce ((fun c => Z.eqb c 200) <$> codes));
              CategoryReport.services :=
                zip_with (fun api c => {| CheckResult.name := ApiSpec.name api;
                                          CheckResult.active := Some (Z.eqb c 200) |})
                  specs codes |}))
    /\ data info !! "functions"
       = Some (FCategory (Report
           {| CategoryReport.status := Some (and_reduce outs);
              CategoryReport.services :=
                zip_with (fun spec b => {| CheckResult.name := FnSpec.name spec;
                                           CheckResult.active := Some b |})
                  fns outs |})).
Proof.
  intros Hnet Hfns Hao Hfo Hjo Hdisk.
  destruct (healthCheckServer_settled (host w) (disk w) Hdisk) as (m & Hm & _).
  pose proof (executeApis_answered (net w) (apis_order w) specs codes Hnet Hao)
    as Ha.
  pose proof (executeFunctions_answered (functions_order w) fns outs Hfns Hfo)
    as Hf.
  eexists. exists m. unfold route_handler.
  rewrite (orchestrate_resolved w {| apis := Some specs; functions := Some fns |}
             _ _ m Hjo Ha Hf Hm).
  split_and!; try done.
  simpl. rewrite lookup_insert_ne, lookup_insert_ne, lookup_insert_eq by done.
  by rewrite zip_with_fmap_r.
Qed.

Lemma route_handler_report_witness :
  exists info,
    sent (route_handler (sample_world degraded_net [1; 0] [1; 0] [2; 0; 1])
            (InspectionSetObj {| apis := Some two_apis; functions := Some mixed_fns |})
            (RequestObj "/health") no_effects)
    = [ {| code := 200; body := ReportBody info |} ]
    /\ data info !! "functions"
       = Some (FCategory (Report
           {| CategoryReport.status := Some false;
              CategoryReport.services :=
                [ {| CheckResult.name := "db"; CheckResult.active := Some false |};
                  {| CheckResult.name := "queue"; CheckResult.active := Some true |} ] |})).
Proof.
  destruct (route_handler_report (sample_world degraded_net [1; 0] [1; 0] [2; 0; 1])
              two_apis [200; 503]%Z mixed_fns [false; true]
              (RequestObj "/health") no_effects)
    as (info & m & Hsent & _ & _ & _ & _ & Hfns).
  - repeat constructor.
  - constructor; [left; reflexivity|].
    constructor; [right; reflexivity | constructor].
  - exact (perm_swap 0 1 []).
  - exact (perm_swap 0 1 []).
  - exact sample_join_order.
  - discriminate.
  - exists info. split; [by rewrite Hsent | exact Hfns].
Defined.
